(** * Console Invaders: the per-frame simulation core of [coninv.cpp]

    A shallow embedding of the game state, of [Shield::hit], [AlienFire],
    [GetAlienScreenOffset], [DrawAliens], [HitAlien], the other drawing
    routines and of the body of the frame loop of [main], followed by the
    properties of the specification that are settled on it.

    Conventions of the embedding.
    - [int] is [Z].  Signed overflow is undefined in C++ and no [int] of the
      program comes near the limits, so nothing wraps.
    - [float] is IEEE-754 binary32, through the Standard Library's
      [SpecFloat] at precision 24 and maximal exponent 128: every [+], [-],
      [*], [/] and comparison of the source on [float] is the correctly
      rounded operation.
    - [wchar_t] is [ascii]: every glyph of the program is an ASCII one.
    - Arrays are lists of the declared size.  An access outside the declared
      bounds is undefined behaviour in C++; here it stops the computation
      with [Crash], so the frame function is a function into [result].
    - What comes from outside the program in one frame (clock, keyboard,
      [rand], the decimal rendering of the frame rate) is the [Input] of the
      frame. *)

From Stdlib Require Import ZArith List Bool Lia String Ascii DecimalString.
From Stdlib Require Import Floats.SpecFloat.
From stdpp Require Import base list.

Open Scope Z_scope.

(** ** binary32 arithmetic *)

Module F32.

Definition prec : Z := 24.
Definition emax : Z := 128.

Definition float := spec_float.

(** Conversion of an [int] to [float], round to nearest even. *)
Definition of_Z (z : Z) : float := binary_normalize prec emax z 0 false.

Definition add : float -> float -> float := SFadd prec emax.
Definition sub : float -> float -> float := SFsub prec emax.
Definition mul : float -> float -> float := SFmul prec emax.
Definition div : float -> float -> float := SFdiv prec emax.

Definition ltb : float -> float -> bool := SFltb.
Definition leb : float -> float -> bool := SFleb.
Definition gtb (a b : float) : bool := SFltb b a.
Definition geb (a b : float) : bool := SFleb b a.

(** A decimal literal [n/d] of the source, such as [0.6f]: the binary32
    number nearest to the quotient (both operands are exact and the
    division is correctly rounded). *)
Definition lit (n d : Z) : float := div (of_Z n) (of_Z d).

Definition zero : float := S754_zero false.

Definition INT_MIN : Z := - 2 ^ 31.
Definition INT_MAX : Z := 2 ^ 31 - 1.

(** [(int)roundf(v)]: the nearest integer, halfway cases away from zero.
    Converting a NaN, an infinity or a value outside the range of [int] is
    undefined in C++; the x86-64 conversion instruction gives [INT_MIN]
    then, and so does this function. *)
Definition roundf_int (v : float) : Z :=
  match v with
  | S754_zero _ => 0
  | S754_finite s m e =>
      let mag :=
        match e with
        | Zneg p => let d := 2 ^ Zpos p in (2 * Zpos m + d) / (2 * d)
        | _ => Zpos m * 2 ^ e
        end in
      let r := cond_Zopp s mag in
      if (INT_MIN <=? r) && (r <=? INT_MAX) then r else INT_MIN
  | _ => INT_MIN
  end.

End F32.

Abbreviation float := F32.float.

(** ** Undefined behaviour as an error result *)

Inductive Fault : Type :=
| OutOfBounds (array : string) (index : Z)
| FormatOverflow.

Inductive result (A : Type) : Type :=
| Ok (a : A)
| Crash (f : Fault).
Arguments Ok {A} a.
Arguments Crash {A} f.

#[global] Instance result_ret : MRet result := fun A a => Ok a.
#[global] Instance result_bind : MBind result :=
  fun A B k m => match m with Ok a => k a | Crash f => Crash f end.

(** [buf[idx]] and [buf[idx] = v] on an array declared with [size] cells. *)
Definition peek {A} (name : string) (size : Z) (buf : list A) (idx : Z) : result A :=
  if (0 <=? idx) && (idx <? size) then
    match buf !! Z.to_nat idx with
    | Some v => Ok v
    | None => Crash (OutOfBounds name idx)
    end
  else Crash (OutOfBounds name idx).

Definition poke {A} (name : string) (size : Z) (buf : list A) (idx : Z) (v : A)
  : result (list A) :=
  if (0 <=? idx) && (idx <? size) then Ok (<[Z.to_nat idx := v]> buf)
  else Crash (OutOfBounds name idx).

(** A [for] loop over the elements of [l], threading the state [s]. *)
Fixpoint forM {A S} (body : A -> S -> result S) (l : list A) (s : S) : result S :=
  match l with
  | [] => Ok s
  | a :: l' => s' ← body a s; forM body l' s'
  end.

(** [0, 1, ..., n-1], the values of a loop counter. *)
Definition upto (n : nat) : list Z := map Z.of_nat (seq 0 n).

(** ** Constants of the game *)

Definition nScreenWidth : Z := 120.
Definition nScreenHeight : Z := 30.
Definition nAlienBlockWidth : Z := 10.
Definition nAlienBlockHeight : Z := 4.
Definition nAlienGlyphWidth : Z := 3.
Definition nPlayerY : Z := nScreenHeight - 1.
Definition nMaxAlienBullet : nat := 5.

(** [RAND_MAX] of the Microsoft C runtime, for which the program is written. *)
Definition RAND_MAX : Z := 32767.

Definition alienGlyphs : list string :=
  ["<o>>o<"; "}O{-O-"; "[T]]+["; "(+)-x-"]%string.
Definition shieldGlyphs : string := " -=#".
Definition playerGlyph : string := "<I>".

(** Codes kept in [alienState]. *)
Definition ALIVE : Z := 0.
Definition EXPLODING : Z := 1.
Definition DEAD : Z := 2.

Inductive KeyMnemonics : Type := LEFT_ARROW | RIGHT_ARROW | SPACEBAR | ESC | PAUSE.

(** A [bool[nPlayerKeys]] array, one cell per key. *)
Record Keys : Type := mkKeys {
  k_left : bool; k_right : bool; k_space : bool; k_esc : bool; k_pause : bool }.

Definition key_get (a : Keys) (k : KeyMnemonics) : bool :=
  match k with
  | LEFT_ARROW => k_left a | RIGHT_ARROW => k_right a | SPACEBAR => k_space a
  | ESC => k_esc a | PAUSE => k_pause a
  end.

Definition key_set (a : Keys) (k : KeyMnemonics) (v : bool) : Keys :=
  match k with
  | LEFT_ARROW => mkKeys v (k_right a) (k_space a) (k_esc a) (k_pause a)
  | RIGHT_ARROW => mkKeys (k_left a) v (k_space a) (k_esc a) (k_pause a)
  | SPACEBAR => mkKeys (k_left a) (k_right a) v (k_esc a) (k_pause a)
  | ESC => mkKeys (k_left a) (k_right a) (k_space a) v (k_pause a)
  | PAUSE => mkKeys (k_left a) (k_right a) (k_space a) (k_esc a) v
  end.

(** ** Shield *)

Module Shield.

Definition Length : Z := 8.
Definition Height : Z := 3.
Definition MaxStrength : Z := 3.

Record t : Type := mk { m_strength : list Z; nX : Z; nY : Z }.

(** The constructor [Shield(x, y)]. *)
Definition new (x y : Z) : t :=
  mk (replicate (Z.to_nat (Length * Height)) MaxStrength) x y.

Definition inside (sh : t) (colX rowY : Z) : bool :=
  (nX sh <=? colX) && (colX <? nX sh + Length)
  && (nY sh <=? rowY) && (rowY <? nY sh + Height).

Definition offset (sh : t) (colX rowY : Z) : Z :=
  (rowY - nY sh) * Length + (colX - nX sh).

(** [bool Shield::hit(int colX, int rowY)]: the answer and the shield
    afterwards.  The [assert] of the source holds for every argument that
    passes the footprint test (lemma [hit_assert_holds] below), so the
    cell read always exists in an array of [Length*Height] cells. *)
Definition hit (sh : t) (colX rowY : Z) : bool * t :=
  if inside sh colX rowY then
    let shieldOff := offset sh colX rowY in
    match m_strength sh !! Z.to_nat shieldOff with
    | Some v =>
        if 0 <? v
        then (true, mk (<[Z.to_nat shieldOff := v - 1]> (m_strength sh)) (nX sh) (nY sh))
        else (false, sh)
    | None => (false, sh)
    end
  else (false, sh).

(** Strength of the cell drawn at screen position [(colX, rowY)]. *)
Definition strength_at (sh : t) (colX rowY : Z) : option Z :=
  m_strength sh !! Z.to_nat (offset sh colX rowY).

(** A sequence of calls of [hit] on one shield: the answers, in order, and
    the shield afterwards. *)
Fixpoint hits (sh : t) (ps : list (Z * Z)) : list bool * t :=
  match ps with
  | [] => ([], sh)
  | (c, r) :: ps' =>
      let '(a, sh1) := hit sh c r in
      let '(answers, sh2) := hits sh1 ps' in
      (a :: answers, sh2)
  end.

(** The representation invariant of a shield. *)
Definition wf (sh : t) : Prop :=
  length (m_strength sh) = Z.to_nat (Length * Height)
  /\ Forall (fun v => 0 <= v <= MaxStrength) (m_strength sh).

End Shield.

(** ** Projectiles and the state of a round *)

Record Bullet : Type := mkBullet {
  b_visible : bool; b_x : float; b_y : float; b_glyph : ascii }.

(** The constructor [Bullet(glyph)]. *)
Definition newBullet (glyph : ascii) : Bullet := mkBullet false F32.zero F32.zero glyph.

(** The global variables of the program and the local variables of [main]
    that live as long as a round. *)
Record Game : Type := mkGame {
  alienState : list Z;
  nAlienStep : Z;
  fPlayerX : float;
  fPlayerVx : float;
  fPlayerBulletSpeed : float;
  nAlienBlockX : Z;
  nAlienBlockY : Z;
  fExplodingElapsed : float;
  nAlienExploding : Z;
  fAlienBulletSpeed : float;
  bKeyHold : Keys;
  shields : list Shield.t;
  screen : list ascii;
  bQuit : bool;
  bGameOver : bool;
  bPlayerHit : bool;
  fAnimElapsed : float;
  nFrameOffset : Z;
  nScore : Z;
  nLives : Z;
  iAlien : Z;
  jAlien : Z;
  fAnimDelay : float;
  bullet : Bullet;
  alienBullets : list Bullet }.

(** Assignments to one variable. *)

Definition set_alienState (v : list Z) (g : Game) : Game :=
  mkGame v (nAlienStep g) (fPlayerX g) (fPlayerVx g) (fPlayerBulletSpeed g)
    (nAlienBlockX g) (nAlienBlockY g) (fExplodingElapsed g) (nAlienExploding g)
    (fAlienBulletSpeed g) (bKeyHold g) (shields g) (screen g) (bQuit g) (bGameOver g)
    (bPlayerHit g) (fAnimElapsed g) (nFrameOffset g) (nScore g) (nLives g) (iAlien g)
    (jAlien g) (fAnimDelay g) (bullet g) (alienBullets g).

Definition set_nAlienStep (v : Z) (g : Game) : Game :=
  mkGame (alienState g) v (fPlayerX g) (fPlayerVx g) (fPlayerBulletSpeed g)
    (nAlienBlockX g) (nAlienBlockY g) (fExplodingElapsed g) (nAlienExploding g)
    (fAlienBulletSpeed g) (bKeyHold g) (shields g) (screen g) (bQuit g) (bGameOver g)
    (bPlayerHit g) (fAnimElapsed g) (nFrameOffset g) (nScore g) (nLives g) (iAlien g)
    (jAlien g) (fAnimDelay g) (bullet g) (alienBullets g).

Definition set_fPlayerX (v : float) (g : Game) : Game :=
  mkGame (alienState g) (nAlienStep g) v (fPlayerVx g) (fPlayerBulletSpeed g)
    (nAlienBlockX g) (nAlienBlockY g) (fExplodingElapsed g) (nAlienExploding g)
    (fAlienBulletSpeed g) (bKeyHold g) (shields g) (screen g) (bQuit g) (bGameOver g)
    (bPlayerHit g) (fAnimElapsed g) (nFrameOffset g) (nScore g) (nLives g) (iAlien g)
    (jAlien g) (fAnimDelay g) (bullet g) (alienBullets g).

Definition set_nAlienBlockX (v : Z) (g : Game) : Game :=
  mkGame (alienState g) (nAlienStep g) (fPlayerX g) (fPlayerVx g) (fPlayerBulletSpeed g)
    v (nAlienBlockY g) (fExplodingElapsed g) (nAlienExploding g) (fAlienBulletSpeed g)
    (bKeyHold g) (shields g) (screen g) (bQuit g) (bGameOver g) (bPlayerHit g)
    (fAnimElapsed g) (nFrameOffset g) (nScore g) (nLives g) (iAlien g) (jAlien g)
    (fAnimDelay g) (bullet g) (alienBullets g).

Definition set_nAlienBlockY (v : Z) (g : Game) : Game :=
  mkGame (alienState g) (nAlienStep g) (fPlayerX g) (fPlayerVx g) (fPlayerBulletSpeed g)
    (nAlienBlockX g) v (fExplodingElapsed g) (nAlienExploding g) (fAlienBulletSpeed g)
    (bKeyHold g) (shields g) (screen g) (bQuit g) (bGameOver g) (bPlayerHit g)
    (fAnimElapsed g) (nFrameOffset g) (nScore g) (nLives g) (iAlien g) (jAlien g)
    (fAnimDelay g) (bullet g) (alienBullets g).

Definition set_fExplodingElapsed (v : float) (g : Game) : Game :=
  mkGame (alienState g) (nAlienStep g) (fPlayerX g) (fPlayerVx g) (fPlayerBulletSpeed g)
    (nAlienBlockX g) (nAlienBlockY g) v (nAlienExploding g) (fAlienBulletSpeed g)
    (bKeyHold g) (shields g) (screen g) (bQuit g) (bGameOver g) (bPlayerHit g)
    (fAnimElapsed g) (nFrameOffset g) (nScore g) (nLives g) (iAlien g) (jAlien g)
    (fAnimDelay g) (bullet g) (alienBullets g).

Definition set_nAlienExploding (v : Z) (g : Game) : Game :=
  mkGame (alienState g) (nAlienStep g) (fPlayerX g) (fPlayerVx g) (fPlayerBulletSpeed g)
    (nAlienBlockX g) (nAlienBlockY g) (fExplodingElapsed g) v (fAlienBulletSpeed g)
    (bKeyHold g) (shields g) (screen g) (bQuit g) (bGameOver g) (bPlayerHit g)
    (fAnimElapsed g) (nFrameOffset g) (nScore g) (nLives g) (iAlien g) (jAlien g)
    (fAnimDelay g) (bullet g) (alienBullets g).

Definition set_bKeyHold (v : Keys) (g : Game) : Game :=
  mkGame (alienState g) (nAlienStep g) (fPlayerX g) (fPlayerVx g) (fPlayerBulletSpeed g)
    (nAlienBlockX g) (nAlienBlockY g) (fExplodingElapsed g) (nAlienExploding g)
    (fAlienBulletSpeed g) v (shields g) (screen g) (bQuit g) (bGameOver g)
    (bPlayerHit g) (fAnimElapsed g) (nFrameOffset g) (nScore g) (nLives g) (iAlien g)
    (jAlien g) (fAnimDelay g) (bullet g) (alienBullets g).

Definition set_shields (v : list Shield.t) (g : Game) : Game :=
  mkGame (alienState g) (nAlienStep g) (fPlayerX g) (fPlayerVx g) (fPlayerBulletSpeed g)
    (nAlienBlockX g) (nAlienBlockY g) (fExplodingElapsed g) (nAlienExploding g)
    (fAlienBulletSpeed g) (bKeyHold g) v (screen g) (bQuit g) (bGameOver g)
    (bPlayerHit g) (fAnimElapsed g) (nFrameOffset g) (nScore g) (nLives g) (iAlien g)
    (jAlien g) (fAnimDelay g) (bullet g) (alienBullets g).

Definition set_screen (v : list ascii) (g : Game) : Game :=
  mkGame (alienState g) (nAlienStep g) (fPlayerX g) (fPlayerVx g) (fPlayerBulletSpeed g)
    (nAlienBlockX g) (nAlienBlockY g) (fExplodingElapsed g) (nAlienExploding g)
    (fAlienBulletSpeed g) (bKeyHold g) (shields g) v (bQuit g) (bGameOver g)
    (bPlayerHit g) (fAnimElapsed g) (nFrameOffset g) (nScore g) (nLives g) (iAlien g)
    (jAlien g) (fAnimDelay g) (bullet g) (alienBullets g).

Definition set_bQuit (v : bool) (g : Game) : Game :=
  mkGame (alienState g) (nAlienStep g) (fPlayerX g) (fPlayerVx g) (fPlayerBulletSpeed g)
    (nAlienBlockX g) (nAlienBlockY g) (fExplodingElapsed g) (nAlienExploding g)
    (fAlienBulletSpeed g) (bKeyHold g) (shields g) (screen g) v (bGameOver g)
    (bPlayerHit g) (fAnimElapsed g) (nFrameOffset g) (nScore g) (nLives g) (iAlien g)
    (jAlien g) (fAnimDelay g) (bullet g) (alienBullets g).

Definition set_bGameOver (v : bool) (g : Game) : Game :=
  mkGame (alienState g) (nAlienStep g) (fPlayerX g) (fPlayerVx g) (fPlayerBulletSpeed g)
    (nAlienBlockX g) (nAlienBlockY g) (fExplodingElapsed g) (nAlienExploding g)
    (fAlienBulletSpeed g) (bKeyHold g) (shields g) (screen g) (bQuit g) v (bPlayerHit g)
    (fAnimElapsed g) (nFrameOffset g) (nScore g) (nLives g) (iAlien g) (jAlien g)
    (fAnimDelay g) (bullet g) (alienBullets g).

Definition set_bPlayerHit (v : bool) (g : Game) : Game :=
  mkGame (alienState g) (nAlienStep g) (fPlayerX g) (fPlayerVx g) (fPlayerBulletSpeed g)
    (nAlienBlockX g) (nAlienBlockY g) (fExplodingElapsed g) (nAlienExploding g)
    (fAlienBulletSpeed g) (bKeyHold g) (shields g) (screen g) (bQuit g) (bGameOver g) v
    (fAnimElapsed g) (nFrameOffset g) (nScore g) (nLives g) (iAlien g) (jAlien g)
    (fAnimDelay g) (bullet g) (alienBullets g).

Definition set_fAnimElapsed (v : float) (g : Game) : Game :=
  mkGame (alienState g) (nAlienStep g) (fPlayerX g) (fPlayerVx g) (fPlayerBulletSpeed g)
    (nAlienBlockX g) (nAlienBlockY g) (fExplodingElapsed g) (nAlienExploding g)
    (fAlienBulletSpeed g) (bKeyHold g) (shields g) (screen g) (bQuit g) (bGameOver g)
    (bPlayerHit g) v (nFrameOffset g) (nScore g) (nLives g) (iAlien g) (jAlien g)
    (fAnimDelay g) (bullet g) (alienBullets g).

Definition set_nFrameOffset (v : Z) (g : Game) : Game :=
  mkGame (alienState g) (nAlienStep g) (fPlayerX g) (fPlayerVx g) (fPlayerBulletSpeed g)
    (nAlienBlockX g) (nAlienBlockY g) (fExplodingElapsed g) (nAlienExploding g)
    (fAlienBulletSpeed g) (bKeyHold g) (shields g) (screen g) (bQuit g) (bGameOver g)
    (bPlayerHit g) (fAnimElapsed g) v (nScore g) (nLives g) (iAlien g) (jAlien g)
    (fAnimDelay g) (bullet g) (alienBullets g).

Definition set_nScore (v : Z) (g : Game) : Game :=
  mkGame (alienState g) (nAlienStep g) (fPlayerX g) (fPlayerVx g) (fPlayerBulletSpeed g)
    (nAlienBlockX g) (nAlienBlockY g) (fExplodingElapsed g) (nAlienExploding g)
    (fAlienBulletSpeed g) (bKeyHold g) (shields g) (screen g) (bQuit g) (bGameOver g)
    (bPlayerHit g) (fAnimElapsed g) (nFrameOffset g) v (nLives g) (iAlien g) (jAlien g)
    (fAnimDelay g) (bullet g) (alienBullets g).

Definition set_nLives (v : Z) (g : Game) : Game :=
  mkGame (alienState g) (nAlienStep g) (fPlayerX g) (fPlayerVx g) (fPlayerBulletSpeed g)
    (nAlienBlockX g) (nAlienBlockY g) (fExplodingElapsed g) (nAlienExploding g)
    (fAlienBulletSpeed g) (bKeyHold g) (shields g) (screen g) (bQuit g) (bGameOver g)
    (bPlayerHit g) (fAnimElapsed g) (nFrameOffset g) (nScore g) v (iAlien g) (jAlien g)
    (fAnimDelay g) (bullet g) (alienBullets g).

Definition set_iAlien (v : Z) (g : Game) : Game :=
  mkGame (alienState g) (nAlienStep g) (fPlayerX g) (fPlayerVx g) (fPlayerBulletSpeed g)
    (nAlienBlockX g) (nAlienBlockY g) (fExplodingElapsed g) (nAlienExploding g)
    (fAlienBulletSpeed g) (bKeyHold g) (shields g) (screen g) (bQuit g) (bGameOver g)
    (bPlayerHit g) (fAnimElapsed g) (nFrameOffset g) (nScore g) (nLives g) v (jAlien g)
    (fAnimDelay g) (bullet g) (alienBullets g).

Definition set_jAlien (v : Z) (g : Game) : Game :=
  mkGame (alienState g) (nAlienStep g) (fPlayerX g) (fPlayerVx g) (fPlayerBulletSpeed g)
    (nAlienBlockX g) (nAlienBlockY g) (fExplodingElapsed g) (nAlienExploding g)
    (fAlienBulletSpeed g) (bKeyHold g) (shields g) (screen g) (bQuit g) (bGameOver g)
    (bPlayerHit g) (fAnimElapsed g) (nFrameOffset g) (nScore g) (nLives g) (iAlien g) v
    (fAnimDelay g) (bullet g) (alienBullets g).

Definition set_fAnimDelay (v : float) (g : Game) : Game :=
  mkGame (alienState g) (nAlienStep g) (fPlayerX g) (fPlayerVx g) (fPlayerBulletSpeed g)
    (nAlienBlockX g) (nAlienBlockY g) (fExplodingElapsed g) (nAlienExploding g)
    (fAlienBulletSpeed g) (bKeyHold g) (shields g) (screen g) (bQuit g) (bGameOver g)
    (bPlayerHit g) (fAnimElapsed g) (nFrameOffset g) (nScore g) (nLives g) (iAlien g)
    (jAlien g) v (bullet g) (alienBullets g).

Definition set_bullet (v : Bullet) (g : Game) : Game :=
  mkGame (alienState g) (nAlienStep g) (fPlayerX g) (fPlayerVx g) (fPlayerBulletSpeed g)
    (nAlienBlockX g) (nAlienBlockY g) (fExplodingElapsed g) (nAlienExploding g)
    (fAlienBulletSpeed g) (bKeyHold g) (shields g) (screen g) (bQuit g) (bGameOver g)
    (bPlayerHit g) (fAnimElapsed g) (nFrameOffset g) (nScore g) (nLives g) (iAlien g)
    (jAlien g) (fAnimDelay g) v (alienBullets g).

Definition set_alienBullets (v : list Bullet) (g : Game) : Game :=
  mkGame (alienState g) (nAlienStep g) (fPlayerX g) (fPlayerVx g) (fPlayerBulletSpeed g)
    (nAlienBlockX g) (nAlienBlockY g) (fExplodingElapsed g) (nAlienExploding g)
    (fAlienBulletSpeed g) (bKeyHold g) (shields g) (screen g) (bQuit g) (bGameOver g)
    (bPlayerHit g) (fAnimElapsed g) (nFrameOffset g) (nScore g) (nLives g) (iAlien g)
    (jAlien g) (fAnimDelay g) (bullet g) v.

(** ** What a frame receives from outside *)

Record Input : Type := mkInput {
  (** [elapsedTime.count()], the seconds since the previous frame *)
  fElapsedTime : float;
  (** the key states sampled with [GetAsyncKeyState] *)
  bKeyPressed : Keys;
  (** [rand k] is the value of the [k]-th call of [rand()] in this frame *)
  rand : nat -> Z;
  (** the characters the C runtime prints for [%.1f] of [1.0f/fElapsedTime] *)
  fpsText : string }.

(** ** The routines of the program *)

Definition screenSize : Z := nScreenWidth * nScreenHeight.
Definition alienCount : Z := nAlienBlockWidth * nAlienBlockHeight.

Definition newShields : list Shield.t :=
  map (fun i => Shield.new ((i + 1) * 30) (nScreenHeight - 6)) (upto 3).

(** [AlienFire]: the first free slot of the pool is claimed.  The globals
    [nAlienBlockX] and [nAlienBlockY] are the arguments [blockX], [blockY]. *)
Fixpoint AlienFire (blockX blockY : Z) (alienBullets : list Bullet) (i j : Z)
  : bool * list Bullet :=
  match alienBullets with
  | [] => (false, [])
  | b :: rest =>
      if negb (b_visible b) then
        (true, mkBullet true (F32.of_Z (blockX + 6 * j + 1)) (F32.of_Z (blockY + i + 1))
                 (b_glyph b) :: rest)
      else
        let '(fired, rest') := AlienFire blockX blockY rest i j in
        (fired, b :: rest')
  end.

Definition ClearBuffer : list ascii := replicate (Z.to_nat screenSize) " "%char.

Definition GetAlienScreenOffset (g : Game) (i j : Z) : Z :=
  (2 * i + nAlienBlockY g) * nScreenWidth + nAlienBlockX g + j * 6.

(** The pairs [(i, j)] in the order of the two nested loops over the block. *)
Definition alienCells : list (Z * Z) :=
  list_prod (upto (Z.to_nat nAlienBlockHeight)) (upto (Z.to_nat nAlienBlockWidth)).

(** [text[idx]] of a [wstring]. *)
Definition charAt (name : string) (text : string) (idx : Z) : result ascii :=
  if 0 <=? idx then
    match String.get (Z.to_nat idx) text with
    | Some c => Ok c
    | None => Crash (OutOfBounds name idx)
    end
  else Crash (OutOfBounds name idx).

Definition drawAlien (g : Game) (frameOffset : Z) (cell : Z * Z) (scr : list ascii)
  : result (list ascii) :=
  let '(i, j) := cell in
  let nScreenOffset := GetAlienScreenOffset g i j in
  let alienIndex := i * nAlienBlockWidth + j in
  state ← peek "alienState" alienCount (alienState g) alienIndex;
  if state =? 0 then
    forM (fun k scr =>
            match alienGlyphs !! Z.to_nat (i mod 4) with
            | Some glyphs =>
                c ← charAt "alienGlyphs" glyphs (frameOffset + k);
                poke "screen" screenSize scr (nScreenOffset + k) c
            | None => Crash (OutOfBounds "alienGlyphs" (i mod 4))
            end) (upto 3) scr
  else if state =? 1 then
    forM (fun k scr => poke "screen" screenSize scr (nScreenOffset + k) "x"%char)
         (upto 3) scr
  else Ok scr.

Definition DrawAliens (g : Game) (frameOffset : Z) (scr : list ascii)
  : result (list ascii) :=
  forM (drawAlien g frameOffset) alienCells scr.

Definition specialChars : string := "*#=- ".

(** The loop of [HitAlien] over the characters to ignore, with its [break]. *)
Fixpoint notSpecial (bHitAlien : bool) (c : ascii) (special : list ascii) : bool :=
  match special with
  | [] => bHitAlien
  | s :: rest =>
      let bHitAlien := bHitAlien && negb (Ascii.eqb c s) in
      if bHitAlien then notSpecial bHitAlien c rest else false
  end.

Definition alienAt (g : Game) (bulletIndex : Z) (cell : Z * Z) : bool :=
  let alienOffset := GetAlienScreenOffset g (fst cell) (snd cell) in
  (alienOffset <=? bulletIndex) && (bulletIndex <? alienOffset + 3).

(** [HitAlien(&bullet, &iAlien, &jAlien)]: the answer and the values of
    [iAlien] and [jAlien] afterwards; they are written only when the scan
    finds a cell. *)
Definition HitAlien (g : Game) (b : Bullet) : result (bool * (Z * Z)) :=
  let nBulletY := F32.roundf_int (b_y b) in
  let nBulletX := F32.roundf_int (b_x b) in
  let bulletIndex := (nBulletY - 1) * nScreenWidth + nBulletX in
  c ← peek "screen" screenSize (screen g) bulletIndex;
  let bHitAlien :=
    notSpecial (F32.gtb (b_y b) (F32.of_Z 0)) c (list_ascii_of_string specialChars) in
  if bHitAlien then
    match find (alienAt g bulletIndex) alienCells with
    | Some cell => Ok (true, cell)
    | None => Ok (true, (iAlien g, jAlien g))
    end
  else Ok (false, (iAlien g, jAlien g)).

Definition DrawPlayer (g : Game) (scr : list ascii) : result (list ascii) :=
  let nPlayerX := F32.roundf_int (fPlayerX g) in
  forM (fun k scr =>
          let offset := nPlayerY * nScreenWidth + nPlayerX + k in
          if offset <? nScreenHeight * nScreenWidth then
            if bPlayerHit g then poke "screen" screenSize scr offset "X"%char
            else c ← charAt "playerGlyph" playerGlyph k;
                 poke "screen" screenSize scr offset c
          else Ok scr)
       (upto (String.length playerGlyph)) scr.

Definition drawBullet (b : Bullet) (scr : list ascii) : result (list ascii) :=
  if b_visible b then
    let nX := F32.roundf_int (b_x b) in
    let nY := F32.roundf_int (b_y b) in
    poke "screen" screenSize scr (nY * nScreenWidth + nX) (b_glyph b)
  else Ok scr.

Definition DrawBullets (g : Game) (scr : list ascii) : result (list ascii) :=
  scr ← drawBullet (bullet g) scr;
  forM drawBullet (alienBullets g) scr.

Definition drawShieldCell (shld : Shield.t) (cell : Z * Z) (scr : list ascii)
  : result (list ascii) :=
  let '(i, j) := cell in
  let nScreenOffset := (Shield.nY shld + i) * nScreenWidth + Shield.nX shld + j in
  nStrengthVal ← peek "m_strength" (Shield.Length * Shield.Height)
                   (Shield.m_strength shld) (i * Shield.Length + j);
  c ← charAt "shieldGlyphs" shieldGlyphs nStrengthVal;
  poke "screen" screenSize scr nScreenOffset c.

Definition DrawShields (g : Game) (scr : list ascii) : result (list ascii) :=
  forM (fun shld =>
          forM (drawShieldCell shld)
               (list_prod (upto (Z.to_nat Shield.Height)) (upto (Z.to_nat Shield.Length))))
       (shields g) scr.

(** ** One iteration of the frame loop of [main] *)

(** The loop [for (auto& shld: shields) if (shld.hit(x, y)) ...]: whether
    some shield answered [true], and the shields afterwards. *)
Fixpoint hitShields (shs : list Shield.t) (colX rowY : Z) : bool * list Shield.t :=
  match shs with
  | [] => (false, [])
  | shld :: rest =>
      let '(a, shld') := Shield.hit shld colX rowY in
      let '(a', rest') := hitShields rest colX rowY in
      (a || a', shld' :: rest')
  end.

Definition setVisible (v : bool) (b : Bullet) : Bullet :=
  mkBullet v (b_x b) (b_y b) (b_glyph b).

Definition setY (y : float) (b : Bullet) : Bullet :=
  mkBullet (b_visible b) (b_x b) y (b_glyph b).

(** Player input: the quit key and the lateral movement. *)
Definition pollQuit (inp : Input) (g : Game) : Game :=
  if key_get (bKeyPressed inp) ESC then set_bQuit true (set_bGameOver true g) else g.

Definition moveLeft (inp : Input) (g : Game) : Game :=
  if key_get (bKeyPressed inp) LEFT_ARROW && negb (bPlayerHit g) then
    let dx := F32.mul (fPlayerVx g) (fElapsedTime inp) in
    if F32.gtb (fPlayerX g) dx then set_fPlayerX (F32.sub (fPlayerX g) dx) g
    else set_fPlayerX F32.zero g
  else set_bKeyHold (key_set (bKeyHold g) LEFT_ARROW true) g.

Definition moveRight (inp : Input) (g : Game) : Game :=
  if key_get (bKeyPressed inp) RIGHT_ARROW && negb (bPlayerHit g) then
    let dx := F32.mul (fPlayerVx g) (fElapsedTime inp) in
    let maxX := F32.of_Z (nScreenWidth - Z.of_nat (String.length playerGlyph)) in
    if F32.leb (F32.add (fPlayerX g) dx) maxX then set_fPlayerX (F32.add (fPlayerX g) dx) g
    else set_fPlayerX maxX g
  else set_bKeyHold (key_set (bKeyHold g) RIGHT_ARROW true) g.

(** The block commented [// Firing]: the player's bullet. *)
Definition firing (inp : Input) (g : Game) : result Game :=
  if b_visible (bullet g) then
    let b := setY (F32.add (b_y (bullet g))
                           (F32.mul (fPlayerBulletSpeed g) (fElapsedTime inp))) (bullet g) in
    let nBulletX := F32.roundf_int (b_x b) in
    let nBulletY := F32.roundf_int (b_y b) in
    let '(absorbed, shs) := hitShields (shields g) nBulletX nBulletY in
    let b := if absorbed then setVisible false b else b in
    let g := set_bullet b (set_shields shs g) in
    if nBulletY <=? 0 then Ok (set_bullet (setVisible false b) g)
    else
      '(bHit, (i, j)) ← HitAlien g b;
      let g := set_jAlien j (set_iAlien i g) in
      if bHit : bool then
        st ← poke "alienState" alienCount (alienState g) (i * nAlienBlockWidth + j) 1;
        Ok (set_nScore (nScore g + 100)
           (set_nAlienExploding (i * nAlienBlockWidth + j)
           (set_fExplodingElapsed F32.zero
           (set_alienState st
           (set_bullet (setVisible false b) g)))))
      else Ok g
  else if key_get (bKeyPressed inp) SPACEBAR && key_get (bKeyHold g) SPACEBAR
          && negb (bPlayerHit g) then
    Ok (set_bKeyHold (key_set (bKeyHold g) SPACEBAR false)
       (set_bullet (mkBullet true (F32.add (fPlayerX g) (F32.of_Z 1))
                             (F32.sub (F32.of_Z nScreenHeight) (F32.of_Z 2))
                             (b_glyph (bullet g))) g))
  else Ok (set_bKeyHold (key_set (bKeyHold g) SPACEBAR true) g).

(** [fAnimDelay -= (fAnimDelay > 10.0) ? 0.05f : 0.0f]. *)
Definition speedUp (g : Game) : Game :=
  set_fAnimDelay
    (F32.sub (fAnimDelay g)
             (if F32.gtb (fAnimDelay g) (F32.of_Z 10) then F32.lit 5 100 else F32.zero)) g.

Definition flipStep (g : Game) : Game :=
  set_nAlienStep (if nAlienStep g =? 1 then -1 else 1) g.

(** The block commented [// Move the aliens]. *)
Definition moveAliens (bUpdateAnim : bool) (g : Game) : Game :=
  if nAlienBlockY g + nAlienBlockHeight >=? nScreenHeight then
    set_nAlienBlockY 2 (set_bGameOver true g)
  else if bUpdateAnim
          && (nAlienBlockX g + 2 * nAlienBlockWidth * nAlienGlyphWidth >=? nScreenWidth) then
    speedUp (set_nAlienBlockX (nAlienBlockX g - 1)
            (set_nAlienBlockY (nAlienBlockY g + 1) (flipStep g)))
  else if bUpdateAnim && (nAlienBlockX g <=? 0) then
    speedUp (set_nAlienBlockX (nAlienBlockX g + 1)
            (set_nAlienBlockY (nAlienBlockY g + 1) (flipStep g)))
  else set_nAlienBlockX (nAlienBlockX g + (if bUpdateAnim then nAlienStep g else 0)) g.

(** The block commented [// update alien firing], for the cells of [cells];
    [n] counts the calls of [rand()] made so far in the frame. *)
Fixpoint aliensFire (inp : Input) (g : Game) (cells : list (Z * Z)) (n : nat)
         (pool : list Bullet) : list Bullet :=
  match cells with
  | [] => pool
  | (i, j) :: cells' =>
      match alienState g !! Z.to_nat (i * nAlienBlockWidth + j) with
      | Some 0 =>
          let fRandfireVal := F32.div (F32.of_Z (rand inp n)) (F32.of_Z RAND_MAX) in
          let fProbFire :=
            if nAlienBlockX g + 6 * j =? F32.roundf_int (fPlayerX g)
            then F32.lit 20 100 else F32.lit 2 100 in
          let pool' :=
            if F32.ltb fRandfireVal fProbFire
            then snd (AlienFire (nAlienBlockX g) (nAlienBlockY g) pool i j)
            else pool in
          aliensFire inp g cells' (S n) pool'
      | _ => aliensFire inp g cells' n pool
      end
  end.

(** The block commented [// update alien bullets], for the bullets of
    [pool]: the bullets afterwards and the state, of which the loop changes
    the shields, [bPlayerHit], [nLives] and [bGameOver]. *)
Fixpoint updateAlienBullets (inp : Input) (pool : list Bullet) (g : Game)
  : list Bullet * Game :=
  match pool with
  | [] => ([], g)
  | b :: rest =>
      let '(b', g') :=
        if b_visible b then
          let b := setY (F32.add (b_y b) (F32.mul (fAlienBulletSpeed g) (fElapsedTime inp))) b in
          let nY := F32.roundf_int (b_y b) in
          let nX := F32.roundf_int (b_x b) in
          let nPlayerX := F32.roundf_int (fPlayerX g) in
          let '(absorbed, shs) := hitShields (shields g) nX nY in
          let b := if absorbed then setVisible false b else b in
          let g := set_shields shs g in
          if negb (bPlayerHit g) && (nY =? nScreenHeight)
             && (nPlayerX <=? nX) && (nX <? nPlayerX + 3) then
            let nLives' := nLives g - (if 0 <? nLives g then 1 else 0) in
            (setVisible false b,
             set_bGameOver (nLives' =? 0) (set_nLives nLives' (set_bPlayerHit true g)))
          else if nY >=? nScreenHeight then (setVisible false b, g)
          else (b, g)
        else (b, g) in
      let '(rest', g'') := updateAlienBullets inp rest g' in
      (b' :: rest', g'')
  end.

(** The block commented [// animate exploding alien]. *)
Definition animateAlien (inp : Input) (g : Game) : result Game :=
  if negb (nAlienExploding g =? -1) then
    if F32.ltb (fExplodingElapsed g) (F32.lit 6 10) then
      Ok (set_fExplodingElapsed (F32.add (fExplodingElapsed g) (fElapsedTime inp)) g)
    else
      st ← poke "alienState" alienCount (alienState g) (nAlienExploding g) 2;
      Ok (set_fExplodingElapsed F32.zero (set_nAlienExploding (-1) (set_alienState st g)))
  else Ok g.

(** The block commented [// animate exploding player]. *)
Definition animatePlayer (inp : Input) (g : Game) : Game :=
  if bPlayerHit g then
    if F32.ltb (fExplodingElapsed g) (F32.of_Z 1) then
      set_fExplodingElapsed (F32.add (fExplodingElapsed g) (fElapsedTime inp)) g
    else set_bPlayerHit false (set_fExplodingElapsed F32.zero g)
  else g.

(** [%Nd] of [printf]: at least [width] characters, padded on the left. *)
Definition fmt_d (width : nat) (z : Z) : string :=
  let digits := NilZero.string_of_int (Z.to_int z) in
  (string_of_list_ascii (replicate (width - String.length digits) " "%char) ++ digits)%string.

(** The text of the status line. *)
Definition statusLine (inp : Input) (g : Game) : string :=
  ("Score: " ++ fmt_d 6 (nScore g) ++ "   Lives: " ++ fmt_d 2 (nLives g)
   ++ "   FPS: " ++ fpsText inp)%string.

(** [swprintf_s(&scr[at], size, text)]: the text and its terminating zero
    are stored; a text that does not fit is a constraint violation, on which
    the runtime stops the program. *)
Definition swprintf_s (scr : list ascii) (at_ size : Z) (text : string)
  : result (list ascii * Z) :=
  let nc := Z.of_nat (String.length text) in
  if (nc <? size) && (0 <=? at_) && (at_ + size <=? screenSize) then
    Ok (list_inserts (Z.to_nat at_) (list_ascii_of_string text ++ [Ascii.zero]) scr, nc)
  else Crash FormatOverflow.

(** The block commented [// Update screen]. *)
Definition render (inp : Input) (g : Game) : result Game :=
  let scr := ClearBuffer in
  '(scr, nc) ← swprintf_s scr 2 64 (statusLine inp g);
  scr ← poke "screen" screenSize scr (2 + nc) " "%char;
  scr ← DrawShields g scr;
  scr ← DrawAliens g (nFrameOffset g) scr;
  scr ← DrawPlayer g scr;
  scr ← DrawBullets g scr;
  Ok (set_screen scr g).

(** The body of [while (! bGameOver)]. *)
Definition frame (inp : Input) (g : Game) : result Game :=
  let g := set_fAnimElapsed (F32.add (fAnimElapsed g) (fElapsedTime inp)) g in
  let bUpdateAnim := F32.geb (fAnimElapsed g) (fAnimDelay g) in
  let g := pollQuit inp g in
  let g := moveLeft inp g in
  let g := moveRight inp g in
  g ← firing inp g;
  let g := moveAliens bUpdateAnim g in
  let g := set_alienBullets (aliensFire inp g alienCells 0 (alienBullets g)) g in
  let '(pool, g) := updateAlienBullets inp (alienBullets g) g in
  let g := set_alienBullets pool g in
  g ← animateAlien inp g;
  let g := animatePlayer inp g in
  g ← render inp g;
  Ok (if bUpdateAnim
      then set_fAnimElapsed F32.zero
             (set_nFrameOffset (if nFrameOffset g =? 3 then 0 else 3) g)
      else g).

(** ** Rounds *)

(** The state in which the frame loop is entered: [InitGame] and the
    initialisations at the top of the outer loop of [main].  Neither resets
    [nAlienStep], [bKeyHold] or the screen buffer, which are arguments. *)
Definition startRound (step : Z) (hold : Keys) (scr : list ascii) : Game :=
  {| alienState := replicate (Z.to_nat alienCount) 0;
     nAlienStep := step;
     fPlayerX := F32.div (F32.of_Z (nScreenWidth - Z.of_nat (String.length playerGlyph)))
                         (F32.of_Z 2);
     fPlayerVx := F32.of_Z 12;
     fPlayerBulletSpeed := F32.of_Z (-20);
     nAlienBlockX := 2;
     nAlienBlockY := 2;
     fExplodingElapsed := F32.zero;
     nAlienExploding := -1;
     fAlienBulletSpeed := F32.of_Z 20;
     bKeyHold := hold;
     shields := newShields;
     screen := scr;
     bQuit := false;
     bGameOver := false;
     bPlayerHit := false;
     fAnimElapsed := F32.zero;
     nFrameOffset := 0;
     nScore := 0;
     nLives := 3;
     iAlien := -1;
     jAlien := -1;
     fAnimDelay := F32.lit 35 100;
     bullet := newBullet "|"%char;
     alienBullets := replicate nMaxAlienBullet (newBullet "*"%char) |}.

(** The first round of the program. *)
Definition initial : Game :=
  startRound 1 (mkKeys true true true true true) ClearBuffer.

Definition gameOverText : string := "GAME OVER! Press Spacebar to restart.".

(** The round that follows a finished one: the message is printed into the
    buffer, the player asks for another round, and the outer loop runs
    [InitGame] again. *)
Definition restart (g : Game) : Game :=
  startRound (nAlienStep g) (bKeyHold g)
    (list_inserts (Z.to_nat (nScreenWidth * nScreenHeight / 2 + nScreenWidth / 2 - 20))
                  (list_ascii_of_string gameOverText ++ [Ascii.zero]) (screen g)).

Definition is_finite (v : float) : bool :=
  match v with
  | S754_zero _ | S754_finite _ _ _ => true
  | _ => false
  end.

(** Inputs the environment can produce: a finite, non-negative elapsed time
    and values of [rand()] between [0] and [RAND_MAX]. *)
Definition valid_input (inp : Input) : Prop :=
  is_finite (fElapsedTime inp) = true
  /\ F32.leb F32.zero (fElapsedTime inp) = true
  /\ forall k, 0 <= rand inp k <= RAND_MAX.

(** The states the program can be in at the top of the frame loop. *)
Inductive reachable : Game -> Prop :=
| reach_initial : reachable initial
| reach_frame (g g' : Game) (inp : Input) :
    reachable g -> bGameOver g = false -> valid_input inp ->
    frame inp g = Ok g' -> reachable g'
| reach_restart (g : Game) :
    reachable g -> bGameOver g = true -> bQuit g = false -> reachable (restart g).

(** [while (! bGameOver)] on the inputs [inps], one per frame: the loop is
    left when [bGameOver] is set, and the inputs that remain are not read. *)
Fixpoint run (inps : list Input) (g : Game) : result Game :=
  match inps with
  | [] => Ok g
  | inp :: rest => if bGameOver g then Ok g else g' ← frame inp g; run rest g'
  end.

(** ** The stages of a frame

    [frame] is the composition of the stages below (lemma [frame_inv]). *)

(** Everything before the block [// Firing]. *)
Definition beforeFiring (inp : Input) (g : Game) : Game :=
  moveRight inp (moveLeft inp (pollQuit inp
    (set_fAnimElapsed (F32.add (fAnimElapsed g) (fElapsedTime inp)) g))).

(** The value of [bUpdateAnim] in the frame that starts in [g]. *)
Definition timeToMove (inp : Input) (g : Game) : bool :=
  F32.geb (F32.add (fAnimElapsed g) (fElapsedTime inp)) (fAnimDelay g).

(** The formation moves and fires, in the state [g1] left by [firing]. *)
Definition afterMove (inp : Input) (g g1 : Game) : Game :=
  let g2 := moveAliens (timeToMove inp g) g1 in
  set_alienBullets (aliensFire inp g2 alienCells 0 (alienBullets g2)) g2.

(** The last statement of the loop body. *)
Definition endOfFrame (inp : Input) (g g5 : Game) : Game :=
  if timeToMove inp g
  then set_fAnimElapsed F32.zero (set_nFrameOffset (if nFrameOffset g5 =? 3 then 0 else 3) g5)
  else g5.

(** ** Vocabulary of the properties *)

(** [sh'] is [sh] with every cell at most as strong. *)
Definition weaker (sh' sh : Shield.t) : Prop :=
  Shield.nX sh' = Shield.nX sh /\ Shield.nY sh' = Shield.nY sh
  /\ Forall2 Z.le (Shield.m_strength sh') (Shield.m_strength sh).

(** The shields [shs'] are well formed and are those of [shs], worn. *)
Definition worn (shs' shs : list Shield.t) : Prop :=
  Forall Shield.wf shs' /\ Forall2 weaker shs' shs.

(** How many of the calls [ps] of [hit] are made at the cell [(c, r)]. *)
Definition callsAt (c r : Z) (ps : list (Z * Z)) : Z :=
  Z.of_nat (length (filter (fun p => p = (c, r)) ps)).

(** How many of them are answered [true]. *)
Fixpoint absorbedAt (c r : Z) (ps : list (Z * Z)) (answers : list bool) : Z :=
  match ps, answers with
  | p :: ps', a :: answers' =>
      (if decide (p = (c, r)) then if a then 1 else 0 else 0) + absorbedAt c r ps' answers'
  | _, _ => 0
  end.

(** The parts of a frame that leave the enemy grid and the score alone. *)
Record sameGrid (g g' : Game) : Prop := {
  sg_state : alienState g' = alienState g;
  sg_index : nAlienExploding g' = nAlienExploding g;
  sg_score : nScore g' = nScore g }.

(** The single explosion slot: no explosion is tracked, or the tracked
    index names a cell that is exploding. *)
Definition tracked (g : Game) : Prop :=
  nAlienExploding g = -1
  \/ (0 <= nAlienExploding g < alienCount
      /\ alienState g !! Z.to_nat (nAlienExploding g) = Some EXPLODING).

Definition gridOk (g : Game) : Prop :=
  length (alienState g) = Z.to_nat alienCount
  /\ Forall (fun v => v = ALIVE \/ v = EXPLODING \/ v = DEAD) (alienState g)
  /\ tracked g.

(** What one frame does to the enemy grid: nothing; or the tracked cell
    dies, because the timer is no longer below [0.6f]; or the player's
    bullet strikes the cell [k], which becomes the tracked one. *)
Inductive gridStep (g g' : Game) : Prop :=
| gs_idle :
    alienState g' = alienState g -> nAlienExploding g' = nAlienExploding g ->
    nScore g' = nScore g ->
    nAlienExploding g = -1 \/ F32.ltb (fExplodingElapsed g) (F32.lit 6 10) = true ->
    gridStep g g'
| gs_death :
    nAlienExploding g <> -1 -> 0 <= nAlienExploding g < alienCount ->
    F32.ltb (fExplodingElapsed g) (F32.lit 6 10) = false ->
    alienState g' = <[Z.to_nat (nAlienExploding g) := DEAD]> (alienState g) ->
    nAlienExploding g' = -1 -> nScore g' = nScore g ->
    gridStep g g'
| gs_hit (k : Z) :
    b_visible (bullet g) = true -> 0 <= k < alienCount ->
    alienState g' = <[Z.to_nat k := EXPLODING]> (alienState g) ->
    nAlienExploding g' = k -> nScore g' = nScore g + 100 ->
    gridStep g g'.

(** The number of cells in the state Exploding. *)
Definition explodingCells (g : Game) : nat :=
  length (filter (fun v => v = EXPLODING) (alienState g)).

(** The cell [k] of the enemy grid holds the code [v]. *)
Definition cellIs (g : Game) (k : nat) (v : Z) : bool :=
  match alienState g !! k with
  | Some w => w =? v
  | None => false
  end.

(** The glyph on the screen at [row] and [col]. *)
Definition glyphAt (g : Game) (row col : Z) : option ascii :=
  screen g !! Z.to_nat (row * nScreenWidth + col).

(** The glyph [c] does not stop the player's bullet. *)
Definition transparent (c : ascii) : bool :=
  negb (notSpecial true c (list_ascii_of_string specialChars)).

(** ** Scenarios

    Concrete rounds, played from the first frame of the program.  Each
    input names the elapsed time, the keys that are down and, in [fpsText],
    the frame rate as the runtime prints it. *)

Definition keys (left right space : bool) : Keys := mkKeys left right space false false.
Definition noKeys : Keys := keys false false false.

(** [rand()] returns [RAND_MAX] throughout the frame: no enemy fires. *)
Definition nobodyFires : nat -> Z := fun _ => RAND_MAX.

(** The [n]-th call of [rand()] in the frame returns [0], the others
    [RAND_MAX]: the [n]-th enemy alive, in scan order, fires. *)
Definition onlyFires (n : nat) : nat -> Z := fun k => if Nat.eqb k n then 0 else RAND_MAX.

Definition play (dt : float) (k : Keys) (fps : string) : Input :=
  mkInput dt k nobodyFires fps.

(** Half a second with no key down: the formation makes one step. *)
Definition wait : Input := play (F32.lit 1 2) noKeys "2.0".

(** A frame of no duration in which the fire key is down. *)
Definition pull : Input := play F32.zero (keys false false true) "inf".

(** A frame of no duration with no key down. *)
Definition rest : Input := play F32.zero noKeys "inf".

(** The state after the frames [inps] of the first round satisfies [P]. *)
Definition lands (inps : list Input) (P : Game -> bool) : bool :=
  match run inps initial with
  | Ok g => P g
  | Crash _ => false
  end.

(** The frame on [inp] is entered in [g] and ends in a state with [Q]. *)
Definition stepsTo (inp : Input) (Q : Game -> Game -> bool) (g : Game) : bool :=
  negb (bGameOver g)
  && match frame inp g with
     | Ok g' => Q g g'
     | Crash _ => false
     end.

(** The frame on [inp] is entered in [g] and leaves the bounds of the array
    [name] at [idx]. *)
Definition crashesAt (inp : Input) (name : string) (idx : Z) (g : Game) : bool :=
  negb (bGameOver g)
  && match frame inp g with
     | Crash (OutOfBounds n i) => String.eqb n name && (i =? idx)
     | _ => false
     end.

(** *** A shot at the status line

    The player moves to the left while firing; the bullet then flies, in one
    long frame, to the row below the status line, under the [e] of
    [Score]. *)
Definition aimAtStatusLine : list Input := [play (F32.lit 9 2) (keys true false true) "0.2"].
Definition flyToTheTop : Input := play (F32.lit 11 8) noKeys "0.7".

(** *** The formation descends unopposed

    The formation reaches the right edge in frame 59 and an edge every 60
    frames from then on. *)
Definition unopposed (descents : nat) : list Input :=
  replicate (59 + 60 * (descents - 1)) wait.

(** After 15 descents the lowest enemy row is the row above the shields,
    and the enemy [(3, 0)] is above the column of the player's gun. *)
Definition fireUnderEnemy : list Input := unopposed 15 ++ [pull].
Definition flyIntoShield : Input := play (F32.lit 2 10) noKeys "5.0".

(** One frame before the 22nd descent. *)
Definition almostTooLow : list Input := replicate (59 + 60 * 21 - 1) wait.

(** One frame before the first descent. *)
Definition almostAtEdge : list Input := replicate 58 wait.

(** *** The fire key is held down *)
Definition pullLong : Input := play (F32.lit 3 2) (keys false false true) "0.7".
Definition firstShotGone : list Input := [pull; pullLong].

(** *** Two shots in a row

    The first shot strikes the enemy [(3, 9)], cell 39, in the third frame;
    the latch is re-armed and the second shot is fired while that enemy is
    still exploding. *)
Definition secondShotFired : list Input :=
  [play (F32.lit 1 8) (keys true false true) "8.0";
   play (F32.lit 1 2) noKeys "2.0";
   play (F32.lit 7 16) noKeys "2.3";
   rest; pull].

(** The second shot flies to the row of the enemy [(3, 9)] ... *)
Definition flyToRow3 : Input := play (F32.lit 15 16) noKeys "1.1".
(** ... or to the row of the enemy [(2, 9)], cell 29. *)
Definition flyToRow2 : Input := play (F32.lit 17 16) noKeys "0.9".

(** *** The two lower enemy rows are shot, then the formation descends

    For each column, the player fires at the enemy of row 3, steps to the
    right with the formation, fires at the enemy of row 2, and moves on to
    the next column. *)
Definition shootColumn : list Input :=
  [pull; flyToRow3; play (F32.lit 1 12) (keys false true false) "12.0"; pull; flyToRow2].
Definition nextColumn : Input := play (F32.lit 2 3) (keys false true false) "1.5".
Definition shootLowerRows : list Input :=
  play (F32.lit 37 8) (keys true false false) "0.2"
  :: concat (replicate 9 (shootColumn ++ [nextColumn]))
  ++ shootColumn ++ [play (F32.of_Z 8) (keys true false false) "0.1"].

(** The formation then descends to the left edge at row 25; the enemy
    [(0, 0)] fires in the frame of the 24th descent. *)
Definition bulletAbovePlayer : list Input :=
  shootLowerRows ++ replicate (28 + 60 * 23 - 1) wait
  ++ [play (F32.lit 3 10) noKeys "3.3";
      mkInput (F32.lit 1 10) noKeys (onlyFires 0) "10.0"].
Definition bulletLands : Input := play (F32.lit 1 20) noKeys "20.0".

(** *** An enemy of the lowest row fires

    In the first frame of the round the 31st enemy alive, [(3, 0)], fires. *)
Definition lowestRowFires : Input := mkInput F32.zero noKeys (onlyFires 30) "inf".

(** ** Reading a state *)

Definition optIs (o : option Z) (v : Z) : bool :=
  match o with
  | Some w => w =? v
  | None => false
  end.

Definition glyphIs (g : Game) (row col : Z) (c : ascii) : bool :=
  match glyphAt g row col with
  | Some d => Ascii.eqb d c
  | None => false
  end.

(** The strength of the cell drawn at [(c, r)], in the [n]-th shield. *)
Definition shieldCell (g : Game) (n : nat) (c r : Z) : option Z :=
  match shields g !! n with
  | Some sh => Shield.strength_at sh c r
  | None => None
  end.


(** ** Vocabulary of the further properties *)

(** The formation is where the movement block keeps it. *)
Definition formationOk (g : Game) : Prop :=
  0 <= nAlienBlockX g <= nScreenWidth - 2 * nAlienBlockWidth * nAlienGlyphWidth
  /\ 2 <= nAlienBlockY g <= nScreenHeight - nAlienBlockHeight
  /\ (nAlienStep g = 1 \/ nAlienStep g = -1).

(** The variables that only the movement block assigns. *)
Record sameFormation (g g' : Game) : Prop := {
  sf_x : nAlienBlockX g' = nAlienBlockX g;
  sf_y : nAlienBlockY g' = nAlienBlockY g;
  sf_step : nAlienStep g' = nAlienStep g }.

(** The variables that decide how a round goes on. *)
Record sameStatus (g g' : Game) : Prop := {
  ss_lives : nLives g' = nLives g;
  ss_over : bGameOver g' = bGameOver g;
  ss_quit : bQuit g' = bQuit g;
  ss_hit : bPlayerHit g' = bPlayerHit g }.


(** The lives are between 0 and 3 and a round without lives is over. *)
Definition livesOk (g : Game) : Prop :=
  0 <= nLives g <= 3 /\ (nLives g = 0 -> bGameOver g = true).


(** The number of visible bullets of a pool. *)
Definition visibleCount (pool : list Bullet) : Z :=
  Z.of_nat (length (filter (fun b => b_visible b = true) pool)).


(** Where the shields stand. *)
Definition shieldPlaces (shs : list Shield.t) : list (Z * Z) :=
  map (fun sh => (Shield.nX sh, Shield.nY sh)) shs.

(** The variables of the animation cadence, and the pool, which the firing
    block and the explosion timer do not touch. *)
Record sameCadence (g g' : Game) : Prop := {
  sc_offset : nFrameOffset g' = nFrameOffset g;
  sc_elapsed : fAnimElapsed g' = fAnimElapsed g;
  sc_pool : alienBullets g' = alienBullets g }.

(** An enemy bullet between two frames: the glyph of the pool, and not yet
    in the row below the player when it is in flight. *)
Definition poolSlotOk (b : Bullet) : Prop :=
  b_glyph b = "*"%char /\ (b_visible b = true -> F32.roundf_int (b_y b) < nScreenHeight).

(** The buffer offset of the first character of the player's glyph. *)
Definition playerOffset (g : Game) : Z :=
  nPlayerY * nScreenWidth + F32.roundf_int (fPlayerX g).

(** The character [DrawPlayer] writes for the column [k] of the glyph. *)
Definition playerChar (g : Game) (k : Z) : option ascii :=
  if bPlayerHit g then Some "X"%char else String.get (Z.to_nat k) playerGlyph.

#[global] Instance float_eq_dec : EqDecision spec_float.
Proof. solve_decision. Defined.

(** * Properties *)

(** ** [Shield::hit], one call and many *)

Section ShieldFacts.
Import Shield.

(** The footprint test, and the [assert] of [hit]. *)
Lemma inside_spec sh c r :
  inside sh c r = true <-> nX sh <= c < nX sh + Length /\ nY sh <= r < nY sh + Height.
Proof. unfold inside. rewrite !andb_true_iff, !Z.leb_le, !Z.ltb_lt. lia. Qed.

Lemma hit_assert_holds sh c r :
  inside sh c r = true -> 0 <= offset sh c r < Length * Height.
Proof. rewrite inside_spec. unfold offset, Length, Height. lia. Qed.

Lemma offset_inj sh c r c' r' :
  inside sh c r = true -> inside sh c' r' = true ->
  Z.to_nat (offset sh c r) = Z.to_nat (offset sh c' r') -> c = c' /\ r = r'.
Proof. rewrite !inside_spec. unfold offset, Length, Height. lia. Qed.

Lemma wf_strength sh c r :
  wf sh -> inside sh c r = true ->
  exists v, strength_at sh c r = Some v /\ 0 <= v <= MaxStrength.
Proof.
  intros [Hlen Hall] Hin. unfold strength_at.
  destruct (lookup_lt_is_Some_2 (m_strength sh) (Z.to_nat (offset sh c r))) as [v Hv].
  { rewrite Hlen. pose proof (hit_assert_holds _ _ _ Hin). lia. }
  exists v. split; [done|]. by eapply (proj1 (Forall_lookup _ _) Hall).
Qed.

Lemma hit_outside sh c r : inside sh c r = false -> hit sh c r = (false, sh).
Proof. unfold hit. by intros ->. Qed.

Lemma hit_spent sh c r v :
  inside sh c r = true -> strength_at sh c r = Some v -> v <= 0 -> hit sh c r = (false, sh).
Proof.
  unfold hit, strength_at. intros -> -> Hv.
  by destruct (Z.ltb_spec 0 v); [lia|].
Qed.

Lemma hit_absorbed sh c r v :
  inside sh c r = true -> strength_at sh c r = Some v -> 0 < v ->
  hit sh c r = (true, mk (<[Z.to_nat (offset sh c r) := v - 1]> (m_strength sh)) (nX sh) (nY sh)).
Proof.
  unfold hit, strength_at. intros -> -> Hv.
  by destruct (Z.ltb_spec 0 v); [|lia].
Qed.

Lemma weaker_refl sh : weaker sh sh.
Proof. repeat split. apply Forall2_same_length_lookup_2; [done|]. intros; simplify_eq; lia. Qed.

Lemma weaker_trans a b c : weaker a b -> weaker b c -> weaker a c.
Proof.
  intros (?&?&Hab) (?&?&Hbc). repeat split; [congruence..|].
  eapply Forall2_trans; [|exact Hab|exact Hbc]. intros; lia.
Qed.

(** The two outcomes of a call on a well-formed shield. *)
Lemma hit_cases sh c r :
  wf sh ->
  (hit sh c r = (false, sh) /\
   (inside sh c r = false \/ (inside sh c r = true /\ strength_at sh c r = Some 0)))
  \/ (exists v, inside sh c r = true /\ strength_at sh c r = Some v /\ 0 < v <= MaxStrength /\
       hit sh c r = (true, mk (<[Z.to_nat (offset sh c r) := v - 1]> (m_strength sh)) (nX sh) (nY sh))).
Proof.
  intros Hwf. destruct (inside sh c r) eqn:Hin.
  - destruct (wf_strength sh c r Hwf Hin) as (v & Hv & Hr).
    destruct (Z.eq_dec v 0) as [->|].
    + left. split; [by eapply hit_spent|]. by right.
    + right. exists v. repeat split; try done; try lia. apply hit_absorbed; [done..|lia].
  - left. split; [by apply hit_outside|by left].
Qed.

Lemma hit_wf sh c r : wf sh -> wf (snd (hit sh c r)).
Proof.
  intros Hwf. destruct (hit_cases sh c r Hwf) as [[-> _]|(v & Hin & Hv & Hr & ->)]; [done|].
  destruct Hwf as [Hlen Hall]. split; simpl.
  - by rewrite length_insert.
  - apply Forall_insert; [done|lia].
Qed.

Lemma hit_weaker sh c r : wf sh -> weaker (snd (hit sh c r)) sh.
Proof.
  intros Hwf. destruct (hit_cases sh c r Hwf) as [[-> _]|(v & Hin & Hv & Hr & ->)].
  - apply weaker_refl.
  - repeat split. simpl. apply Forall2_same_length_lookup_2.
    + by rewrite length_insert.
    + intros i x y Hx Hy. destruct (decide (i = Z.to_nat (offset sh c r))) as [->|Hne].
      * rewrite list_lookup_insert_eq in Hx by (by eapply lookup_lt_Some).
        unfold strength_at in Hv. simplify_eq. lia.
      * rewrite list_lookup_insert_ne in Hx by done. simplify_eq. lia.
Qed.

Lemma hits_wf ps : forall sh, wf sh -> wf (snd (hits sh ps)).
Proof.
  induction ps as [|[c r] ps IH]; intros sh Hwf; simpl; [done|].
  pose proof (hit_wf sh c r Hwf) as H1. destruct (hit sh c r) as [a sh1]. simpl in H1.
  specialize (IH sh1 H1). by destruct (hits sh1 ps).
Qed.

Lemma hits_weaker ps : forall sh, wf sh -> weaker (snd (hits sh ps)) sh.
Proof.
  induction ps as [|[c r] ps IH]; intros sh Hwf; simpl; [apply weaker_refl|].
  pose proof (hit_wf sh c r Hwf) as H1. pose proof (hit_weaker sh c r Hwf) as H2.
  destruct (hit sh c r) as [a sh1]. simpl in *.
  specialize (IH sh1 H1). destruct (hits sh1 ps). simpl in *. by eapply weaker_trans.
Qed.

Lemma hit_other sh c r c' r' :
  wf sh -> inside sh c r = true -> (c', r') <> (c, r) ->
  strength_at (snd (hit sh c' r')) c r = strength_at sh c r.
Proof.
  intros Hwf Hin Hne.
  destruct (hit_cases sh c' r' Hwf) as [[-> _]|(v & Hin' & Hv & Hr & ->)]; [done|].
  unfold strength_at, offset at 1. simpl. fold (offset sh c r).
  apply list_lookup_insert_ne. intros Heq.
  destruct (offset_inj sh c' r' c r Hin' Hin Heq). congruence.
Qed.

Lemma inside_hit sh c' r' c r : inside (snd (hit sh c' r')) c r = inside sh c r.
Proof.
  unfold hit. destruct (inside sh c' r'); [|done].
  destruct (m_strength sh !! _); [|done]. by destruct (0 <? z).
Qed.

(** A cell that starts at strength [v] absorbs the first [v] calls made at
    it, whatever calls are made elsewhere in between. *)
Lemma hits_count ps : forall sh c r v,
  wf sh -> inside sh c r = true -> strength_at sh c r = Some v ->
  strength_at (snd (hits sh ps)) c r = Some (Z.max 0 (v - callsAt c r ps))
  /\ absorbedAt c r ps (fst (hits sh ps)) = Z.min v (callsAt c r ps).
Proof.
  induction ps as [|[c' r'] ps IH]; intros sh c r v Hwf Hin Hv.
  - simpl. unfold callsAt. simpl.
    destruct (wf_strength sh c r Hwf Hin) as (v' & Hv' & Hr). simplify_eq.
    rewrite Hv. split; [f_equal|]; lia.
  - simpl. pose proof (hit_wf sh c' r' Hwf) as Hwf1.
    pose proof (inside_hit sh c' r' c r) as Hin1. rewrite Hin in Hin1.
    destruct (wf_strength sh c r Hwf Hin) as (v' & Hv' & Hr). simplify_eq.
    unfold callsAt. rewrite filter_cons.
    destruct (decide ((c', r') = (c, r))) as [Heq|Hne].
    + injection Heq as -> ->.
      destruct (hit_cases sh c r Hwf) as [[Hh Hc]|(w & _ & Hw & Hwr & Hh)].
      * assert (v = 0) as -> by (destruct Hc as [?|[_ ?]]; congruence).
        rewrite Hh in *. destruct (IH sh c r 0 Hwf Hin Hv) as [E1 E2].
        destruct (hits sh ps) as [answers sh2]. simpl in *.
        rewrite E1, E2. unfold callsAt. split; [f_equal|]; lia.
      * assert (w = v) as -> by congruence.
        rewrite Hh in *. simpl in Hwf1, Hin1.
        set (sh1 := mk _ _ _) in *.
        assert (strength_at sh1 c r = Some (v - 1)) as Hv1.
        { unfold strength_at, sh1, offset at 1. simpl. fold (offset sh c r).
          apply list_lookup_insert_eq. by eapply lookup_lt_Some. }
        destruct (IH sh1 c r (v - 1) Hwf1 Hin1 Hv1) as [E1 E2].
        destruct (hits sh1 ps) as [answers sh2]. simpl in *.
        rewrite E1, E2. unfold callsAt. split; [f_equal|]; lia.
    + pose proof (hit_other sh c r c' r' Hwf Hin Hne) as Hsame. rewrite Hv in Hsame.
      destruct (hit sh c' r') as [a sh1]. simpl in *.
      destruct (IH sh1 c r v Hwf1 Hin1 Hsame) as [E1 E2].
      destruct (hits sh1 ps) as [answers sh2]. simpl in *.
      rewrite E1, E2. unfold callsAt. split; [f_equal|]; lia.
Qed.
End ShieldFacts.

(** ** The blocks of the frame, one by one *)

Lemma bind_Ok {A B} (m : result A) (k : A -> result B) (b : B) :
  (m ≫= k) = Ok b -> exists a, m = Ok a /\ k a = Ok b.
Proof. destruct m as [a|f]; simpl; [eauto|discriminate]. Qed.

Lemma poke_Ok {A} name size (buf : list A) idx v buf' :
  poke name size buf idx v = Ok buf' ->
  0 <= idx < size /\ buf' = <[Z.to_nat idx := v]> buf.
Proof.
  unfold poke. destruct (Z.leb_spec 0 idx), (Z.ltb_spec idx size); simpl;
    intros [=]; subst; split; (lia || done).
Qed.

(** What the player's bullet does to the enemy grid in one frame. *)
Lemma firing_cases inp g g1 :
  firing inp g = Ok g1 ->
  (alienState g1 = alienState g /\ nAlienExploding g1 = nAlienExploding g
   /\ fExplodingElapsed g1 = fExplodingElapsed g /\ nScore g1 = nScore g)
  \/ (b_visible (bullet g) = true /\
      exists k, 0 <= k < alienCount
        /\ alienState g1 = <[Z.to_nat k := EXPLODING]> (alienState g)
        /\ nAlienExploding g1 = k /\ fExplodingElapsed g1 = F32.zero
        /\ nScore g1 = nScore g + 100).
Proof.
  unfold firing. destruct (b_visible (bullet g)) eqn:Hvis.
  - destruct (hitShields _ _ _) as [absorbed shs].
    destruct (_ <=? 0).
    + intros [= <-]. by left.
    + intros H. apply bind_Ok in H as ([bHit [i j]] & Hh & H).
      destruct bHit.
      * apply bind_Ok in H as (st & Hst & H). injection H as <-.
        apply poke_Ok in Hst as [Hk ->]. right. split; [done|].
        exists (i * nAlienBlockWidth + j). cbn. split_and!; (done || lia).
      * injection H as <-. by left.
  - destruct (_ && _); intros [= <-]; by left.
Qed.

(** What the explosion timer does to the enemy grid in one frame. *)
Lemma animateAlien_cases inp g g1 :
  animateAlien inp g = Ok g1 ->
  (alienState g1 = alienState g /\ nAlienExploding g1 = nAlienExploding g
   /\ (nAlienExploding g = -1 \/ F32.ltb (fExplodingElapsed g) (F32.lit 6 10) = true))
  \/ (nAlienExploding g <> -1 /\ F32.ltb (fExplodingElapsed g) (F32.lit 6 10) = false
      /\ 0 <= nAlienExploding g < alienCount
      /\ alienState g1 = <[Z.to_nat (nAlienExploding g) := DEAD]> (alienState g)
      /\ nAlienExploding g1 = -1 /\ fExplodingElapsed g1 = F32.zero).
Proof.
  unfold animateAlien. destruct (Z.eqb_spec (nAlienExploding g) (-1)) as [He|Hne]; simpl.
  - intros [= <-]. left. auto.
  - destruct (F32.ltb _ _) eqn:Hlt.
    + intros [= <-]. left. auto.
    + intros H. apply bind_Ok in H as (st & Hst & [= <-]).
      apply poke_Ok in Hst as [Hk ->]. right. cbn. split_and!; (done || lia).
Qed.

Lemma sameGrid_refl g : sameGrid g g.
Proof. by split. Qed.

(** The enemy bullets leave the grid, the timer, the delay and the player's
    bullet alone. *)
Lemma updateAlienBullets_frame inp pool : forall g pool' g',
  updateAlienBullets inp pool g = (pool', g') ->
  sameGrid g g' /\ fExplodingElapsed g' = fExplodingElapsed g
  /\ fAnimDelay g' = fAnimDelay g /\ bullet g' = bullet g
  /\ length pool' = length pool.
Proof.
  induction pool as [|b rest IH]; intros g pool' g'; simpl.
  - intros [= <- <-]. split_and!; (done || apply sameGrid_refl).
  - destruct (b_visible b).
    + destruct (hitShields _ _ _) as [absorbed shs].
      destruct (negb _ && _ && _ && _); [|destruct (_ >=? _)];
        destruct (updateAlienBullets inp rest _) as [rest' g''] eqn:E;
        intros [= <- <-]; apply IH in E as ([] & ? & ? & ? & ?);
        (split_and!; [split|..]); cbn in *; congruence.
    + destruct (updateAlienBullets inp rest _) as [rest' g''] eqn:E.
      intros [= <- <-]. apply IH in E as ([] & ? & ? & ? & ?).
      (split_and!; [split|..]); cbn in *; congruence.
Qed.

Lemma firing_rest inp g g1 :
  firing inp g = Ok g1 ->
  fAnimDelay g1 = fAnimDelay g /\ bPlayerHit g1 = bPlayerHit g
  /\ nAlienBlockY g1 = nAlienBlockY g.
Proof.
  unfold firing. destruct (b_visible (bullet g)).
  - destruct (hitShields _ _ _) as [absorbed shs].
    destruct (_ <=? 0).
    + by intros [= <-].
    + intros Hb. apply bind_Ok in Hb as ([bHit [i j]] & _ & Hb). destruct bHit.
      * by apply bind_Ok in Hb as (st & _ & [= <-]).
      * by injection Hb as <-.
  - destruct (_ && _); by intros [= <-].
Qed.

(** ** The frame as a composition of its stages *)

Lemma render_Ok inp g g' : render inp g = Ok g' -> exists scr, g' = set_screen scr g.
Proof.
  unfold render. intros H.
  apply bind_Ok in H as ([s nc] & _ & H).
  repeat (apply bind_Ok in H as (? & _ & H)).
  injection H as <-. eauto.
Qed.

Lemma frame_inv inp g g' :
  frame inp g = Ok g' ->
  exists g1 pool g3 g4 scr,
    firing inp (beforeFiring inp g) = Ok g1
    /\ updateAlienBullets inp (alienBullets (afterMove inp g g1)) (afterMove inp g g1) = (pool, g3)
    /\ animateAlien inp (set_alienBullets pool g3) = Ok g4
    /\ g' = endOfFrame inp g (set_screen scr (animatePlayer inp g4)).
Proof.
  unfold frame. intros H.
  apply bind_Ok in H as (g1 & H1 & H).
  destruct (updateAlienBullets _ _ _) as [pool g3] eqn:H3.
  apply bind_Ok in H as (g4 & H4 & H).
  apply bind_Ok in H as (g5 & H5 & H).
  apply render_Ok in H5 as [scr ->].
  injection H as <-.
  exists g1, pool, g3, g4, scr. split_and!; try done.
Qed.

(** What the stages outside the firing block and the explosion timer leave
    unchanged. *)
Ltac stage :=
  intros;
  unfold beforeFiring, afterMove, endOfFrame, pollQuit, moveLeft, moveRight,
         moveAliens, speedUp, flipStep, animatePlayer;
  repeat case_match; reflexivity.

Lemma beforeFiring_grid inp g : sameGrid g (beforeFiring inp g).
Proof. split; stage. Qed.
Lemma beforeFiring_timer inp g :
  fExplodingElapsed (beforeFiring inp g) = fExplodingElapsed g.
Proof. stage. Qed.
Lemma beforeFiring_bullet inp g : bullet (beforeFiring inp g) = bullet g.
Proof. stage. Qed.
Lemma beforeFiring_shields inp g : shields (beforeFiring inp g) = shields g.
Proof. stage. Qed.
Lemma beforeFiring_delay inp g : fAnimDelay (beforeFiring inp g) = fAnimDelay g.
Proof. stage. Qed.
Lemma beforeFiring_hit inp g : bPlayerHit (beforeFiring inp g) = bPlayerHit g.
Proof. stage. Qed.
Lemma beforeFiring_hold inp g :
  key_get (bKeyHold (beforeFiring inp g)) SPACEBAR = key_get (bKeyHold g) SPACEBAR.
Proof. stage. Qed.

Lemma afterMove_grid inp g g1 : sameGrid g1 (afterMove inp g g1).
Proof. split; stage. Qed.
Lemma afterMove_timer inp g g1 :
  fExplodingElapsed (afterMove inp g g1) = fExplodingElapsed g1.
Proof. stage. Qed.
Lemma afterMove_bullet inp g g1 : bullet (afterMove inp g g1) = bullet g1.
Proof. stage. Qed.
Lemma afterMove_shields inp g g1 : shields (afterMove inp g g1) = shields g1.
Proof. stage. Qed.

Lemma endOfFrame_grid inp g g4 scr :
  sameGrid g4 (endOfFrame inp g (set_screen scr (animatePlayer inp g4))).
Proof. split; stage. Qed.
Lemma endOfFrame_bullet inp g g4 scr :
  bullet (endOfFrame inp g (set_screen scr (animatePlayer inp g4))) = bullet g4.
Proof. stage. Qed.
Lemma endOfFrame_shields inp g g4 scr :
  shields (endOfFrame inp g (set_screen scr (animatePlayer inp g4))) = shields g4.
Proof. stage. Qed.
Lemma endOfFrame_delay inp g g4 scr :
  fAnimDelay (endOfFrame inp g (set_screen scr (animatePlayer inp g4))) = fAnimDelay g4.
Proof. stage. Qed.

Lemma animateAlien_rest inp g g1 :
  animateAlien inp g = Ok g1 ->
  nScore g1 = nScore g /\ shields g1 = shields g /\ bullet g1 = bullet g
  /\ fAnimDelay g1 = fAnimDelay g.
Proof.
  unfold animateAlien. repeat case_match; try (intros [= <-]; done).
  intros Hb. by apply bind_Ok in Hb as (st & _ & [= <-]).
Qed.

Lemma frame_gridStep inp g g' : frame inp g = Ok g' -> gridStep g g'.
Proof.
  intros H. apply frame_inv in H as (g1 & pool & g3 & g4 & scr & H1 & H3 & H4 & ->).
  pose proof (beforeFiring_grid inp g) as [B1 B2 B3].
  pose proof (beforeFiring_timer inp g) as B4.
  pose proof (beforeFiring_bullet inp g) as B5.
  pose proof (afterMove_grid inp g g1) as [M1 M2 M3].
  pose proof (afterMove_timer inp g g1) as M4.
  apply updateAlienBullets_frame in H3 as ([U1 U2 U3] & U4 & _).
  pose proof (endOfFrame_grid inp g g4 scr) as [E1 E2 E3].
  pose proof (animateAlien_rest _ _ _ H4) as (R1 & _).
  apply firing_cases in H1 as [(F1 & F2 & F3 & F4)|(Fv & k & Fk & F1 & F2 & F3 & F4)];
    apply animateAlien_cases in H4 as [(A1 & A2 & A3)|(A0 & A1 & A2 & A3 & A4 & A5)];
    cbn in *.
  - apply gs_idle; [congruence..|].
    destruct A3 as [A3|A3]; [left|right]; congruence.
  - apply gs_death; try congruence.
  - apply gs_hit with k; try congruence.
  - exfalso. rewrite U4, M4, F3 in A1. vm_compute in A1. discriminate.
Qed.

(** ** The enemy grid in the reachable states *)

Lemma gridOk_start step hold scr : gridOk (startRound step hold scr).
Proof.
  split_and!; cbn.
  - by rewrite length_replicate.
  - apply Forall_replicate. by left.
  - by left.
Qed.

(** The explosion slot is an invariant of the frame. *)
Lemma gridStep_gridOk g g' : gridStep g g' -> gridOk g -> gridOk g'.
Proof.
  intros Hs (Hlen & Hall & Htr). destruct Hs as [E1 E2 _ _|Hne Hk _ E1 E2 _|k _ Hk E1 E2 _].
  - split_and!; [congruence|congruence|]. unfold tracked. rewrite E1, E2. exact Htr.
  - split_and!.
    + by rewrite E1, length_insert.
    + rewrite E1. apply Forall_insert; [done|]. by right; right.
    + by left.
  - split_and!.
    + by rewrite E1, length_insert.
    + rewrite E1. apply Forall_insert; [done|]. by right; left.
    + right. rewrite E1, E2. split; [done|].
      apply list_lookup_insert_eq. rewrite Hlen. lia.
Qed.

Lemma reachable_gridOk g : reachable g -> gridOk g.
Proof.
  induction 1 as [|g g' inp _ IH _ _ Hf|g _ _ _ _].
  - apply gridOk_start.
  - eapply gridStep_gridOk; [by eapply frame_gridStep|done].
  - apply gridOk_start.
Qed.

(** One frame, cell by cell. *)
Lemma gridStep_cells g g' (k : nat) :
  gridStep g g' -> gridOk g ->
  (alienState g' !! k = Some ALIVE -> alienState g !! k = Some ALIVE)
  /\ (alienState g' !! k = Some DEAD -> alienState g !! k <> Some DEAD ->
      nAlienExploding g = Z.of_nat k /\ alienState g !! k = Some EXPLODING
      /\ F32.ltb (fExplodingElapsed g) (F32.lit 6 10) = false)
  /\ (nAlienExploding g = Z.of_nat k -> b_visible (bullet g) = false ->
      F32.ltb (fExplodingElapsed g) (F32.lit 6 10) = false ->
      alienState g' !! k = Some DEAD /\ nAlienExploding g' = -1).
Proof.
  intros Hs (Hlen & Hall & Htr).
  destruct Hs as [E1 E2 _ Hc|Hne Hk Hlt E1 E2 _|j Hv Hk E1 E2 _]; rewrite E1.
  - split_and!; [done|done|]. intros Hidx _ Hlt. destruct Hc; [lia|congruence].
  - destruct (decide (k = Z.to_nat (nAlienExploding g))) as [->|Hd].
    + rewrite list_lookup_insert_eq by lia. split_and!; [done| |done].
      intros _ _. destruct Htr as [?|[_ ?]]; [done|]. split_and!; [lia|done..].
    + rewrite list_lookup_insert_ne by done. split_and!; [done|done|lia].
  - destruct (decide (k = Z.to_nat j)) as [->|Hd].
    + rewrite list_lookup_insert_eq by lia. split_and!; [done|done|congruence].
    + rewrite list_lookup_insert_ne by done. split_and!; [done|done|congruence].
Qed.

(** The animation delay never changes. *)
Lemma frame_delay inp g g' :
  frame inp g = Ok g' -> fAnimDelay g = F32.lit 35 100 -> fAnimDelay g' = F32.lit 35 100.
Proof.
  intros H Hd. apply frame_inv in H as (g1 & pool & g3 & g4 & scr & H1 & H3 & H4 & ->).
  rewrite endOfFrame_delay.
  apply animateAlien_rest in H4 as (_ & _ & _ & ->). cbn.
  apply updateAlienBullets_frame in H3 as (_ & _ & -> & _).
  apply firing_rest in H1 as (H1 & _). rewrite beforeFiring_delay in H1.
  unfold afterMove, moveAliens, speedUp. repeat case_match; cbn; rewrite ?H1, ?Hd; try reflexivity.
  all: match goal with
       | Hg : F32.gtb _ _ = true |- _ =>
           unfold flipStep in Hg; cbn in Hg; rewrite H1, Hd in Hg; vm_compute in Hg; discriminate
       end.
Qed.

(** ** The shields in the reachable states *)

Lemma worn_refl shs : Forall Shield.wf shs -> worn shs shs.
Proof.
  intros H. split; [done|]. apply Forall2_same_length_lookup_2; [done|].
  intros i x y ? ?. simplify_eq. apply weaker_refl.
Qed.

Lemma worn_trans a b c : worn a b -> worn b c -> worn a c.
Proof.
  intros [Ha Hab] [Hb Hbc]. split; [done|].
  eapply Forall2_trans; [|exact Hab|exact Hbc]. apply weaker_trans.
Qed.

(** The shields change through [hit] only, in the firing block and in the
    loop over the enemy bullets. *)
Lemma hitShields_worn shs c r :
  Forall Shield.wf shs -> worn (snd (hitShields shs c r)) shs.
Proof.
  induction 1 as [|sh shs Hsh _ IH]; simpl.
  - split; constructor.
  - pose proof (hit_wf sh c r Hsh) as H1. pose proof (hit_weaker sh c r Hsh) as H2.
    destruct (Shield.hit sh c r) as [a sh']. destruct (hitShields shs c r) as [a' shs'].
    destruct IH as [I1 I2]. simpl in *. split; by constructor.
Qed.

Lemma firing_shields inp g g1 :
  firing inp g = Ok g1 -> Forall Shield.wf (shields g) -> worn (shields g1) (shields g).
Proof.
  intros H Hwf. revert H. unfold firing. destruct (b_visible (bullet g)).
  - match goal with |- context [hitShields ?s ?c ?r] =>
      pose proof (hitShields_worn s c r Hwf) as Hw; destruct (hitShields s c r) as [absorbed shs]
    end. simpl in Hw.
    destruct (_ <=? 0).
    + by intros [= <-].
    + intros Hb. apply bind_Ok in Hb as ([bHit [i j]] & _ & Hb). destruct bHit.
      * by apply bind_Ok in Hb as (st & _ & [= <-]).
      * by injection Hb as <-.
  - destruct (_ && _); intros [= <-]; by apply worn_refl.
Qed.

Lemma updateAlienBullets_shields inp pool : forall g pool' g',
  updateAlienBullets inp pool g = (pool', g') ->
  Forall Shield.wf (shields g) -> worn (shields g') (shields g).
Proof.
  induction pool as [|b rest IH]; intros g pool' g'; simpl.
  - intros [= <- <-]. apply worn_refl.
  - destruct (b_visible b).
    + intros H Hwf. revert H.
      match goal with |- context [hitShields ?s ?c ?r] =>
        pose proof (hitShields_worn s c r Hwf) as Hw; destruct (hitShields s c r) as [absorbed shs]
      end. simpl in Hw.
      destruct (negb _ && _ && _ && _); [|destruct (_ >=? _)];
        destruct (updateAlienBullets inp rest _) as [rest' g''] eqn:E;
        intros [= <- <-];
        (eapply worn_trans; [eapply IH; [exact E|cbn; apply Hw]|cbn; exact Hw]).
    + destruct (updateAlienBullets inp rest _) as [rest' g''] eqn:E.
      intros [= <- <-] Hwf. by eapply IH.
Qed.

Lemma frame_shields inp g g' :
  frame inp g = Ok g' -> Forall Shield.wf (shields g) -> worn (shields g') (shields g).
Proof.
  intros H Hwf. apply frame_inv in H as (g1 & pool & g3 & g4 & scr & H1 & H3 & H4 & ->).
  rewrite endOfFrame_shields.
  apply animateAlien_rest in H4 as (_ & -> & _). cbn.
  apply firing_shields in H1; [|by rewrite beforeFiring_shields].
  rewrite beforeFiring_shields in H1.
  apply updateAlienBullets_shields in H3; rewrite afterMove_shields in *; [|apply H1].
  by eapply worn_trans.
Qed.

Lemma new_wf x y : Shield.wf (Shield.new x y).
Proof.
  split; [reflexivity|].
  apply Forall_replicate. unfold Shield.MaxStrength. lia.
Qed.

Lemma newShields_wf : Forall Shield.wf newShields.
Proof.
  unfold newShields, upto. simpl.
  repeat (apply List.Forall_cons; [apply new_wf|]). apply List.Forall_nil.
Qed.

Lemma reachable_shields g : reachable g -> Forall Shield.wf (shields g).
Proof.
  induction 1 as [|g g' inp _ IH _ _ Hf|g _ _ _ _].
  - apply newShields_wf.
  - by apply (frame_shields _ _ _ Hf IH).
  - apply newShields_wf.
Qed.

Lemma reachable_delay g : reachable g -> fAnimDelay g = F32.lit 35 100.
Proof.
  induction 1 as [|g g' inp _ IH _ _ Hf|g _ _ _ _]; [done| |done].
  by eapply frame_delay.
Qed.

(** ** The pool and the loop of a round *)

(** [AlienFire] on a pool without a free slot. *)
Lemma AlienFire_full blockX blockY pool i j :
  Forall (fun b => b_visible b = true) pool ->
  AlienFire blockX blockY pool i j = (false, pool).
Proof.
  induction 1 as [|b rest Hb _ IH]; simpl; [done|]. by rewrite Hb, IH.
Qed.

Lemma aliensFire_full inp g cells : forall n pool,
  Forall (fun b => b_visible b = true) pool -> aliensFire inp g cells n pool = pool.
Proof.
  induction cells as [|[i j] cells IH]; intros n pool Hfull; simpl; [done|].
  rewrite AlienFire_full by done. simpl.
  repeat case_match; by apply IH.
Qed.

(** The loop of a round. *)
Lemma run_reachable inps : forall g g',
  reachable g -> Forall valid_input inps -> run inps g = Ok g' -> reachable g'.
Proof.
  induction inps as [|inp rest IH]; intros g g' Hr Hv; simpl.
  - by intros [= <-].
  - inversion Hv as [|? ? Hi Hrest]; subst.
    destruct (bGameOver g) eqn:Hover; [by intros [= <-]|].
    intros H. apply bind_Ok in H as (g1 & H1 & H).
    eapply IH; [|done|done]. by eapply reach_frame.
Qed.

(** ** Reading the scenarios *)

Lemma cellIs_true g k v : cellIs g k v = true -> alienState g !! k = Some v.
Proof.
  unfold cellIs. destruct (alienState g !! k) as [w|]; [|discriminate].
  intros Hw. apply Z.eqb_eq in Hw. by subst.
Qed.

Lemma optIs_true o v : optIs o v = true -> o = Some v.
Proof. destruct o as [w|]; simpl; [|discriminate]. intros Hw. apply Z.eqb_eq in Hw. by subst. Qed.

Lemma glyphIs_true g row col c : glyphIs g row col c = true -> glyphAt g row col = Some c.
Proof.
  unfold glyphIs. destruct (glyphAt g row col) as [d|]; [|discriminate].
  intros Hd. apply Ascii.eqb_eq in Hd. by subst.
Qed.

Lemma stepsTo_true inp Q g :
  stepsTo inp Q g = true ->
  bGameOver g = false /\ exists g', frame inp g = Ok g' /\ Q g g' = true.
Proof.
  unfold stepsTo. intros H. apply andb_prop in H as [Hover H].
  apply negb_true_iff in Hover. split; [done|].
  destruct (frame inp g) as [g'|]; [eauto|discriminate].
Qed.

Lemma crashesAt_true inp name idx g :
  crashesAt inp name idx g = true ->
  bGameOver g = false /\ frame inp g = Crash (OutOfBounds name idx).
Proof.
  unfold crashesAt. intros H. apply andb_prop in H as [Hover H].
  apply negb_true_iff in Hover. split; [done|].
  destruct (frame inp g) as [g'|[n i|]]; try discriminate.
  apply andb_prop in H as [Hn Hi].
  apply String.eqb_eq in Hn. apply Z.eqb_eq in Hi. by subst.
Qed.

Lemma lands_reachable inps P :
  Forall valid_input inps -> lands inps P = true -> exists g, reachable g /\ P g = true.
Proof.
  unfold lands. intros Hv H. destruct (run inps initial) as [g|] eqn:Hrun; [|discriminate].
  exists g. split; [|done]. eapply run_reachable; [apply reach_initial|done..].
Qed.

Lemma valid_rand dt k rnd fps :
  is_finite dt = true -> F32.leb F32.zero dt = true ->
  (forall n, 0 <= rnd n <= RAND_MAX) -> valid_input (mkInput dt k rnd fps).
Proof. by intros; split_and!. Qed.

Lemma valid_play dt k fps :
  is_finite dt = true -> F32.leb F32.zero dt = true -> valid_input (play dt k fps).
Proof. intros. apply valid_rand; [done..|]. intros n. unfold nobodyFires, RAND_MAX. lia. Qed.

Lemma valid_onlyFires dt k n fps :
  is_finite dt = true -> F32.leb F32.zero dt = true ->
  valid_input (mkInput dt k (onlyFires n) fps).
Proof.
  intros. apply valid_rand; [done..|]. intros m. unfold onlyFires, RAND_MAX.
  destruct (Nat.eqb m n); lia.
Qed.

(** The inputs of a scenario are inputs the environment can produce. *)
Ltac valid_inputs :=
  repeat first
    [ apply List.Forall_nil
    | apply List.Forall_cons
    | apply Forall_app_2
    | apply Forall_replicate
    | apply Forall_concat
    | apply valid_play; reflexivity
    | apply valid_onlyFires; reflexivity ].

(** From the boolean tests of a scenario to propositions. *)
Ltac unbool :=
  repeat match goal with
  | H : _ && _ = true |- _ => apply andb_prop in H as [? ?]
  | H : negb _ = true |- _ => apply negb_true_iff in H
  | H : (_ =? _) = true |- _ => apply Z.eqb_eq in H
  | H : (_ >=? _) = true |- _ => apply Z.geb_le in H
  | H : Nat.eqb _ _ = true |- _ => apply Nat.eqb_eq in H
  | H : cellIs _ _ _ = true |- _ => apply cellIs_true in H
  | H : optIs _ _ = true |- _ => apply optIs_true in H
  | H : glyphIs _ _ _ _ = true |- _ => apply glyphIs_true in H
  end.

(** ** The shield ([Shield::hit]) *)

Lemma new_strength x y c r :
  Shield.inside (Shield.new x y) c r = true ->
  Shield.strength_at (Shield.new x y) c r = Some Shield.MaxStrength.
Proof.
  intros Hin. destruct (wf_strength _ _ _ (new_wf x y) Hin) as (v & Hv & _).
  rewrite Hv. f_equal. unfold Shield.strength_at in Hv.
  change (Shield.m_strength (Shield.new x y))
    with (replicate (Z.to_nat (Shield.Length * Shield.Height)) Shield.MaxStrength) in Hv.
  by apply lookup_replicate in Hv as [-> _].
Qed.

(** C2. For a shield with [Length*Height] cells of strength between [0] and
    [MaxStrength] and every [(colX, rowY)]: outside the footprint, and on a
    footprint cell of strength [0], [hit] answers [false] and returns the
    shield as it is; on any other footprint cell it answers [true] and
    lowers that cell, and no other, by one.  Hence the strengths stay
    between [0] and [MaxStrength] and never grow, under one call, under any
    sequence of calls and over every frame of a round; and of the calls made
    at one cell of a shield, in any sequence, exactly the first [v] are
    absorbed when the cell starts at strength [v] ([MaxStrength] for a new
    shield), after which the cell stays at [0]. *)
Theorem C2_shield_hit (sh : Shield.t) (colX rowY : Z) (Hwf : Shield.wf sh) :
  (Shield.inside sh colX rowY = false -> Shield.hit sh colX rowY = (false, sh))
  /\ (Shield.inside sh colX rowY = true -> Shield.strength_at sh colX rowY = Some 0 ->
      Shield.hit sh colX rowY = (false, sh))
  /\ (Shield.inside sh colX rowY = true ->
      forall v, Shield.strength_at sh colX rowY = Some v -> v <> 0 ->
        0 < v <= Shield.MaxStrength
        /\ Shield.hit sh colX rowY
           = (true, Shield.mk (<[Z.to_nat (Shield.offset sh colX rowY) := v - 1]>
                                 (Shield.m_strength sh)) (Shield.nX sh) (Shield.nY sh)))
  /\ (Shield.wf (snd (Shield.hit sh colX rowY)) /\ weaker (snd (Shield.hit sh colX rowY)) sh)
  /\ (forall ps, Shield.wf (snd (Shield.hits sh ps)) /\ weaker (snd (Shield.hits sh ps)) sh)
  /\ (Shield.inside sh colX rowY = true ->
      forall v ps, Shield.strength_at sh colX rowY = Some v ->
        Shield.strength_at (snd (Shield.hits sh ps)) colX rowY
        = Some (Z.max 0 (v - callsAt colX rowY ps))
        /\ absorbedAt colX rowY ps (fst (Shield.hits sh ps)) = Z.min v (callsAt colX rowY ps))
  /\ (forall x y, Shield.inside (Shield.new x y) colX rowY = true ->
      Shield.strength_at (Shield.new x y) colX rowY = Some Shield.MaxStrength)
  /\ (forall g inp g', reachable g -> frame inp g = Ok g' -> worn (shields g') (shields g)).
Proof.
  split; [|split; [|split; [|split; [|split; [|split; [|split]]]]]].
  - apply hit_outside.
  - intros Hin Hv. by eapply hit_spent.
  - intros Hin v Hv Hne.
    destruct (wf_strength sh colX rowY Hwf Hin) as (w & Hw & Hr).
    assert (w = v) as -> by congruence.
    split; [lia|]. apply hit_absorbed; [done..|lia].
  - split; [by apply hit_wf|by apply hit_weaker].
  - intros ps. split; [by apply hits_wf|by apply hits_weaker].
  - intros Hin v ps Hv. by apply hits_count.
  - intros x y. apply new_strength.
  - intros g inp g' Hr Hf. eapply frame_shields; [done|by apply reachable_shields].
Qed.

Lemma C2_shield_hit_witness :
  Shield.wf (Shield.new 30 24)
  /\ fst (Shield.hit (Shield.new 30 24) 31 25) = true
  /\ Shield.strength_at (snd (Shield.hit (Shield.new 30 24) 31 25)) 31 25 = Some 2
  /\ Shield.hit (Shield.new 30 24) 29 25 = (false, Shield.new 30 24)
  /\ fst (Shield.hits (Shield.new 30 24) (replicate 5 (31, 25)))
     = [true; true; true; false; false].
Proof.
  pose proof (C2_shield_hit (Shield.new 30 24) 31 25 (new_wf 30 24))
    as (_ & _ & Habs & _ & _ & _ & _ & _).
  pose proof (C2_shield_hit (Shield.new 30 24) 29 25 (new_wf 30 24))
    as (Hout & _).
  destruct (Habs eq_refl 3 eq_refl) as [_ Hhit]; [lia|].
  split_and!.
  - apply new_wf.
  - by rewrite Hhit.
  - by rewrite Hhit.
  - by apply Hout.
  - reflexivity.
Defined.

(** ** The enemy projectile pool ([AlienFire]) *)

(** C8. On a pool all of whose slots are visible, [AlienFire] answers
    [false] and returns the pool as it is, for every enemy [(i, j)] and
    every position of the formation; and the firing loop of a frame, which
    changes nothing but the pool, leaves such a pool as it is whatever the
    values of [rand()]. *)
Theorem C8_full_pool_is_noop (blockX blockY : Z) (pool : list Bullet) (i j : Z)
  (Hfull : Forall (fun b => b_visible b = true) pool) :
  AlienFire blockX blockY pool i j = (false, pool)
  /\ forall inp g cells n, aliensFire inp g cells n pool = pool.
Proof.
  split; [by apply AlienFire_full|]. intros. by apply aliensFire_full.
Qed.

Lemma C8_full_pool_is_noop_witness :
  let pool := replicate nMaxAlienBullet (mkBullet true (F32.of_Z 7) (F32.of_Z 9) "*"%char) in
  Forall (fun b => b_visible b = true) pool
  /\ AlienFire 2 2 pool 3 4 = (false, pool).
Proof.
  intros pool.
  assert (Forall (fun b => b_visible b = true) pool) as Hfull
    by (apply Forall_replicate; reflexivity).
  split; [exact Hfull|]. apply (C8_full_pool_is_noop 2 2 pool 3 4 Hfull).
Defined.

(** ** The explosion slot *)

(** In every state of the program the exploding index is [-1] or names an
    exploding cell of the grid, which holds nothing but the three codes. *)
Lemma explosion_slot g : reachable g -> gridOk g.
Proof. apply reachable_gridOk. Qed.

(** In a frame no cell goes back to Alive; a cell becomes Dead only as the
    tracked cell, when the timer is not below [0.6f]; and the tracked cell
    does become Dead then, if the player's bullet is not in flight. *)
Lemma explosion_cells g inp g' (k : nat) :
  reachable g -> frame inp g = Ok g' ->
  (alienState g' !! k = Some ALIVE -> alienState g !! k = Some ALIVE)
  /\ (alienState g' !! k = Some DEAD -> alienState g !! k <> Some DEAD ->
      nAlienExploding g = Z.of_nat k /\ alienState g !! k = Some EXPLODING
      /\ F32.ltb (fExplodingElapsed g) (F32.lit 6 10) = false)
  /\ (nAlienExploding g = Z.of_nat k -> b_visible (bullet g) = false ->
      F32.ltb (fExplodingElapsed g) (F32.lit 6 10) = false ->
      alienState g' !! k = Some DEAD /\ nAlienExploding g' = -1).
Proof.
  intros Hr Hf. apply gridStep_cells; [by eapply frame_gridStep|by apply reachable_gridOk].
Qed.

(** C1. The code at the failing input: two shots in a row, the second
    fired while the enemy struck by the first is exploding.  The frame in
    which the second shot strikes the cell 29 leaves two cells exploding, 29
    and 39; one frame later the cell 29 is Dead, the timer having passed
    [0.6f], the exploding index is [-1], and the cell 39 is exploding still:
    by [explosion_cells] it can leave that state only by being struck
    again. *)
Theorem C1_second_strike_orphans_explosion :
  exists g g' : Game,
    reachable g /\ bGameOver g = false /\ frame rest g = Ok g'
    /\ explodingCells g = 2%nat
    /\ alienState g !! 29%nat = Some EXPLODING /\ alienState g !! 39%nat = Some EXPLODING
    /\ nAlienExploding g = 29
    /\ F32.ltb (F32.lit 6 10) (fExplodingElapsed g) = true
    /\ alienState g' !! 29%nat = Some DEAD /\ alienState g' !! 39%nat = Some EXPLODING
    /\ nAlienExploding g' = -1.
Proof.
  destruct (lands_reachable (secondShotFired ++ [flyToRow2])
              (stepsTo rest (fun g g' =>
                 Nat.eqb (explodingCells g) 2 && cellIs g 29 EXPLODING
                 && cellIs g 39 EXPLODING && (nAlienExploding g =? 29)
                 && F32.ltb (F32.lit 6 10) (fExplodingElapsed g)
                 && cellIs g' 29 DEAD && cellIs g' 39 EXPLODING
                 && (nAlienExploding g' =? -1))))
    as (g & Hr & Hc).
  - unfold secondShotFired, flyToRow2, rest, pull. valid_inputs.
  - vm_cast_no_check (eq_refl true).
  - apply stepsTo_true in Hc as (Hover & g' & Hf & Hc). unbool.
    exists g, g'. by split_and!.
Qed.

(** ** The player's bullet *)

(** What a frame entered without a bullet in flight does to the bullet and
    the latch: either the key is down, the latch is set and the player is
    not hit, and the bullet is fired and the latch cleared; or the bullet
    stays out of sight and the latch is set. *)
Lemma firing_no_bullet inp g g1 :
  b_visible (bullet g) = false -> firing inp g = Ok g1 ->
  (key_get (bKeyPressed inp) SPACEBAR = true /\ key_get (bKeyHold g) SPACEBAR = true
   /\ bPlayerHit g = false /\ b_visible (bullet g1) = true
   /\ key_get (bKeyHold g1) SPACEBAR = false)
  \/ (b_visible (bullet g1) = false /\ key_get (bKeyHold g1) SPACEBAR = true).
Proof.
  unfold firing. intros Hvis. rewrite Hvis.
  destruct (key_get (bKeyPressed inp) SPACEBAR), (key_get (bKeyHold g) SPACEBAR),
    (bPlayerHit g); simpl; intros [= <-]; cbn.
  all: first [ left; by split_and! | right; by split ].
Qed.

(** A frame entered without a bullet in flight ends with one in flight only
    if the fire key is down, the latch is set and the player is not hit. *)
Lemma frame_fires inp g g' :
  frame inp g = Ok g' -> b_visible (bullet g) = false -> b_visible (bullet g') = true ->
  key_get (bKeyPressed inp) SPACEBAR = true /\ key_get (bKeyHold g) SPACEBAR = true
  /\ bPlayerHit g = false.
Proof.
  intros H Hvis Hvis'. apply frame_inv in H as (g1 & pool & g3 & g4 & scr & H1 & H3 & H4 & ->).
  rewrite endOfFrame_bullet in Hvis'.
  apply animateAlien_rest in H4 as (_ & _ & H4 & _). rewrite H4 in Hvis'. cbn in Hvis'.
  apply updateAlienBullets_frame in H3 as (_ & _ & _ & H3 & _).
  rewrite H3, afterMove_bullet in Hvis'.
  apply firing_no_bullet in H1; [|by rewrite beforeFiring_bullet].
  rewrite beforeFiring_hold, beforeFiring_hit in H1.
  destruct H1 as [(? & ? & ? & _)|[? _]]; [done|congruence].
Qed.

(** C4. The code at the failing input: the fire key is down in every
    frame.  The first shot leaves the screen in the second frame; the third
    frame, in which the key is still observed down, finds the latch cleared
    and sets it; the fourth frame fires the second shot. *)
Theorem C4_refire_with_key_held :
  Forall (fun inp => key_get (bKeyPressed inp) SPACEBAR = true) (firstShotGone ++ [pull])
  /\ exists g2 g3 g4 : Game,
       reachable g2
       /\ bGameOver g2 = false /\ frame pull g2 = Ok g3
       /\ bGameOver g3 = false /\ frame pull g3 = Ok g4
       /\ b_visible (bullet g2) = false /\ key_get (bKeyHold g2) SPACEBAR = false
       /\ b_visible (bullet g3) = false /\ key_get (bKeyHold g3) SPACEBAR = true
       /\ b_visible (bullet g4) = true.
Proof.
  split; [by repeat constructor|].
  destruct (lands_reachable firstShotGone
              (stepsTo pull (fun g g' =>
                 negb (b_visible (bullet g)) && negb (key_get (bKeyHold g) SPACEBAR)
                 && negb (b_visible (bullet g')) && key_get (bKeyHold g') SPACEBAR
                 && stepsTo pull (fun _ g'' => b_visible (bullet g'')) g')))
    as (g2 & Hr & Hc).
  - unfold firstShotGone, pull, pullLong. valid_inputs.
  - vm_cast_no_check (eq_refl true).
  - apply stepsTo_true in Hc as (Hover & g3 & Hf & Hc). unbool.
    match goal with H : stepsTo _ _ _ = true |- _ =>
      apply stepsTo_true in H as (Hover3 & g4 & Hf4 & Hc4) end.
    exists g2, g3, g4. by split_and!.
Qed.

(** ** Shields and the hit-tests *)

(** The shields of a round stay in the rows 24 to 26. *)
Lemma reachable_shield_rows g :
  reachable g -> Forall (fun sh => Shield.nY sh = nScreenHeight - 6) (shields g).
Proof.
  induction 1 as [|g g' inp Hr IH _ _ Hf|g _ _ _ _].
  - unfold initial, startRound, newShields, upto. cbn. by repeat constructor.
  - apply frame_shields in Hf as [_ Hw]; [|by apply reachable_shields].
    revert IH. induction Hw as [|sh' sh shs' shs (_ & Hy & _) _ IHw]; [done|].
    intros Hall. inversion Hall; subst. constructor; [congruence|by apply IHw].
  - unfold restart, startRound, newShields, upto. cbn. by repeat constructor.
Qed.

Lemma hitShields_inside shs c r :
  fst (hitShields shs c r) = true -> exists sh, In sh shs /\ Shield.inside sh c r = true.
Proof.
  induction shs as [|sh shs IH]; simpl; [discriminate|].
  destruct (Shield.hit sh c r) as [a sh'] eqn:Hh.
  destruct (hitShields shs c r) as [a' shs']. simpl in *.
  destruct a; simpl.
  - intros _. exists sh. split; [by left|].
    destruct (Shield.inside sh c r) eqn:Hin; [done|].
    rewrite hit_outside in Hh by done. discriminate.
  - intros Ha. destruct (IH Ha) as (sh0 & Hin & Hins). exists sh0. split; [by right|done].
Qed.

(** An enemy projectile absorbed by a shield is not in the row of the
    player hit-test: the two tests never both succeed. *)
Lemma absorbed_is_above_player g c r :
  reachable g -> fst (hitShields (shields g) c r) = true -> r < nScreenHeight.
Proof.
  intros Hr Ha. apply hitShields_inside in Ha as (sh & Hin & Hins).
  pose proof (reachable_shield_rows g Hr) as Hrows.
  apply (proj1 (List.Forall_forall _ _) Hrows) in Hin.
  apply inside_spec in Hins. unfold nScreenHeight, Shield.Height in *. lia.
Qed.

(** C3. The code at the failing input: the formation has descended to the
    row above the shields and the player fires under the enemy [(3, 0)],
    cell 30.  In the next frame the bullet arrives at column 60 of row 24,
    the top left cell of the second shield: the shield absorbs it, losing
    one unit of strength, and in the same frame the enemy above that cell
    is struck and the score grows by 100. *)
Theorem C3_absorbed_bullet_strikes_enemy :
  exists g g' : Game,
    reachable g /\ bGameOver g = false /\ valid_input flyIntoShield
    /\ frame flyIntoShield g = Ok g'
    /\ b_visible (bullet g) = true
    /\ F32.roundf_int (b_x (bullet g')) = 60 /\ F32.roundf_int (b_y (bullet g')) = 24
    /\ fst (hitShields (shields g) 60 24) = true
    /\ shieldCell g 1 60 24 = Some 3 /\ shieldCell g' 1 60 24 = Some 2
    /\ alienState g !! 30%nat = Some ALIVE /\ alienState g' !! 30%nat = Some EXPLODING
    /\ nScore g' = nScore g + 100.
Proof.
  destruct (lands_reachable fireUnderEnemy
              (stepsTo flyIntoShield (fun g g' =>
                 b_visible (bullet g)
                 && (F32.roundf_int (b_x (bullet g')) =? 60)
                 && (F32.roundf_int (b_y (bullet g')) =? 24)
                 && fst (hitShields (shields g) 60 24)
                 && optIs (shieldCell g 1 60 24) 3 && optIs (shieldCell g' 1 60 24) 2
                 && cellIs g 30 ALIVE && cellIs g' 30 EXPLODING
                 && (nScore g' =? nScore g + 100))))
    as (g & Hr & Hc).
  - unfold fireUnderEnemy, unopposed, wait, pull. valid_inputs.
  - vm_cast_no_check (eq_refl true).
  - apply stepsTo_true in Hc as (Hover & g' & Hf & Hc). unbool.
    exists g, g'. split_and!; first [done | by apply valid_play].
Qed.

(** ** The formation at an edge *)

(** A movement tick at a lateral edge, above the bottom threshold: the
    direction flips and the formation goes one row down and one column
    back. *)
Lemma moveAliens_at_edge g :
  nAlienBlockY g + nAlienBlockHeight < nScreenHeight ->
  (nAlienBlockX g + 2 * nAlienBlockWidth * nAlienGlyphWidth >= nScreenWidth ->
   let g' := moveAliens true g in
   nAlienStep g' = (if nAlienStep g =? 1 then -1 else 1)
   /\ nAlienBlockY g' = nAlienBlockY g + 1 /\ nAlienBlockX g' = nAlienBlockX g - 1)
  /\ (nAlienBlockX g + 2 * nAlienBlockWidth * nAlienGlyphWidth < nScreenWidth ->
      nAlienBlockX g <= 0 ->
      let g' := moveAliens true g in
      nAlienStep g' = (if nAlienStep g =? 1 then -1 else 1)
      /\ nAlienBlockY g' = nAlienBlockY g + 1 /\ nAlienBlockX g' = nAlienBlockX g + 1).
Proof.
  intros Hy. unfold moveAliens, speedUp, flipStep.
  destruct (Z.geb_spec (nAlienBlockY g + nAlienBlockHeight) nScreenHeight); [lia|].
  split.
  - intros Hx.
    destruct (Z.geb_spec (nAlienBlockX g + 2 * nAlienBlockWidth * nAlienGlyphWidth)
                nScreenWidth); [|lia].
    by cbn.
  - intros Hx Hl.
    destruct (Z.geb_spec (nAlienBlockX g + 2 * nAlienBlockWidth * nAlienGlyphWidth)
                nScreenWidth); [lia|].
    destruct (Z.leb_spec (nAlienBlockX g) 0); [|lia].
    by cbn.
Qed.

(** C5. The code at the failing input: the first movement tick on which the
    formation is at the right edge.  The step direction flips, the formation
    goes one row down and one column back, and the animation delay is what
    it was, [0.35f]: the decrement applies only to a delay above [10.0]. *)
Theorem C5_delay_not_reduced_at_edge :
  exists g g' : Game,
    reachable g /\ bGameOver g = false /\ valid_input wait /\ frame wait g = Ok g'
    /\ timeToMove wait g = true
    /\ nAlienBlockX g + 2 * nAlienBlockWidth * nAlienGlyphWidth >= nScreenWidth
    /\ nAlienStep g = 1 /\ nAlienStep g' = -1
    /\ nAlienBlockY g' = nAlienBlockY g + 1 /\ nAlienBlockX g' = nAlienBlockX g - 1
    /\ fAnimDelay g = F32.lit 35 100 /\ fAnimDelay g' = F32.lit 35 100.
Proof.
  destruct (lands_reachable almostAtEdge
              (stepsTo wait (fun g g' =>
                 timeToMove wait g
                 && (nAlienBlockX g + 2 * nAlienBlockWidth * nAlienGlyphWidth >=? nScreenWidth)
                 && (nAlienStep g =? 1) && (nAlienStep g' =? -1)
                 && (nAlienBlockY g' =? nAlienBlockY g + 1)
                 && (nAlienBlockX g' =? nAlienBlockX g - 1))))
    as (g & Hr & Hc).
  - unfold almostAtEdge, wait. valid_inputs.
  - vm_cast_no_check (eq_refl true).
  - apply stepsTo_true in Hc as (Hover & g' & Hf & Hc). unbool.
    assert (valid_input wait) as Hw by (by apply valid_play).
    assert (reachable g') as Hr' by (by eapply reach_frame).
    exists g, g'. split_and!; first [done | lia | by apply reachable_delay].
Qed.

(** ** Indices *)

(** C6. The code at the failing inputs.  A bullet that reaches the row
    below the status line under a letter of [Score] passes the glyph test of
    [HitAlien], the scan finds no enemy there, [iAlien] and [jAlien] keep
    their initial [-1], and the frame writes [alienState[-11]].  And when
    the formation, left alone, makes its 22nd descent, the origin row is 24
    and [DrawAliens] writes the glyphs of the enemy row 3 from the cell 3601
    of a screen buffer of 3600 cells. *)
Theorem C6_indices_out_of_bounds :
  (exists g : Game,
     reachable g /\ bGameOver g = false /\ valid_input flyToTheTop
     /\ frame flyToTheTop g = Crash (OutOfBounds "alienState" (-11)))
  /\ (exists g : Game,
        reachable g /\ bGameOver g = false /\ valid_input wait
        /\ nAlienBlockY g = 23
        /\ frame wait g = Crash (OutOfBounds "screen" (screenSize + 1))).
Proof.
  split.
  - destruct (lands_reachable aimAtStatusLine (crashesAt flyToTheTop "alienState" (-11)))
      as (g & Hr & Hc).
    + unfold aimAtStatusLine. valid_inputs.
    + vm_cast_no_check (eq_refl true).
    + apply crashesAt_true in Hc as [Hover Hf].
      exists g. split_and!; first [done | by apply valid_play].
  - destruct (lands_reachable almostTooLow
                (fun g => (nAlienBlockY g =? 23) && crashesAt wait "screen" 3601 g))
      as (g & Hr & Hc).
    + unfold almostTooLow, wait. valid_inputs.
    + vm_cast_no_check (eq_refl true).
    + unbool. match goal with H : crashesAt _ _ _ _ = true |- _ =>
                apply crashesAt_true in H as [Hover Hf] end.
      exists g. split_and!; first [done | by apply valid_play].
Qed.

(** ** The bottom of the screen *)

(** C7. The code at the failing input: the two lower enemy rows are shot
    and the formation descends to the origin row 26, so that
    [nAlienBlockY + nAlienBlockHeight >= nScreenHeight], while an enemy
    bullet is one row above the player, who has three lives.  In the next
    frame the movement block sets [bGameOver], the bullet then hits the
    player, and [bGameOver = nLives == 0] clears the flag: the frame ends
    with two lives, the formation back at row 2 and the round going on. *)
Theorem C7_bottom_reached_round_goes_on :
  exists g g' : Game,
    reachable g /\ bGameOver g = false /\ valid_input bulletLands
    /\ nAlienBlockY g + nAlienBlockHeight >= nScreenHeight
    /\ nLives g = 3
    /\ frame bulletLands g = Ok g'
    /\ bGameOver g' = false /\ bPlayerHit g' = true /\ nLives g' = 2
    /\ nAlienBlockY g' = 2.
Proof.
  destruct (lands_reachable bulletAbovePlayer
              (stepsTo bulletLands (fun g g' =>
                 (nAlienBlockY g + nAlienBlockHeight >=? nScreenHeight)
                 && (nLives g =? 3) && negb (bGameOver g') && bPlayerHit g'
                 && (nLives g' =? 2) && (nAlienBlockY g' =? 2))))
    as (g & Hr & Hc).
  - unfold bulletAbovePlayer, shootLowerRows, shootColumn, nextColumn, flyToRow3,
      flyToRow2, pull, wait.
    valid_inputs.
  - vm_cast_no_check (eq_refl true).
  - apply stepsTo_true in Hc as (Hover & g' & Hf & Hc). unbool.
    exists g, g'. split_and!; first [done | lia | by apply valid_play].
Qed.

(** ** Where an enemy projectile starts *)

(** The slot claimed by [AlienFire] is the first free one, and the bullet
    starts at column [blockX + 6*j + 1] of row [blockY + i + 1]. *)
Lemma AlienFire_spawn blockX blockY i j pool : forall pool',
  AlienFire blockX blockY pool i j = (true, pool') ->
  exists before b after,
    pool = before ++ b :: after
    /\ Forall (fun b => b_visible b = true) before /\ b_visible b = false
    /\ pool' = before
               ++ mkBullet true (F32.of_Z (blockX + 6 * j + 1)) (F32.of_Z (blockY + i + 1))
                           (b_glyph b) :: after.
Proof.
  induction pool as [|b rest IH]; intros pool'; simpl; [discriminate|].
  destruct (b_visible b) eqn:Hb; simpl.
  - destruct (AlienFire blockX blockY rest i j) as [fired rest'] eqn:E.
    intros [= -> <-]. destruct (IH rest' eq_refl) as (before & c & after & -> & Hall & Hc & ->).
    exists (b :: before), c, after. split_and!; try done. by constructor.
  - intros [= <-]. exists [], b, rest. by split_and!.
Qed.

(** C9. The code at the failing input: in the first frame of the round the
    enemy [(3, 0)] fires, the formation being at its origin [(2, 2)].  Its
    glyph is drawn in row 8, columns 2 to 4, and the row below it is row 9;
    the bullet it fires starts in column 3 of row 6, on the glyph of the
    enemy [(2, 0)]: [AlienFire] takes the row [nAlienBlockY + i + 1] where
    [GetAlienScreenOffset] takes [2*i + nAlienBlockY]. *)
Theorem C9_bullet_starts_above_its_enemy :
  alienCells !! 30%nat = Some (3, 0)
  /\ valid_input lowestRowFires
  /\ AlienFire (nAlienBlockX initial) (nAlienBlockY initial) (alienBullets initial) 3 0
     = (true, mkBullet true (F32.of_Z 3) (F32.of_Z 6) "*"%char
                :: replicate 4 (newBullet "*"%char))
  /\ exists (g' : Game) (b : Bullet),
       frame lowestRowFires initial = Ok g'
       /\ alienBullets g' !! 0%nat = Some b /\ b_visible b = true
       /\ F32.roundf_int (b_x b) = 3 /\ F32.roundf_int (b_y b) = 6
       /\ GetAlienScreenOffset g' 3 0 = 8 * nScreenWidth + 2
       /\ glyphAt g' 8 2 = Some "("%char /\ glyphAt g' 8 3 = Some "+"%char
       /\ glyphAt g' 8 4 = Some ")"%char
       /\ glyphAt g' 9 3 = Some " "%char /\ glyphAt g' 6 3 = Some "*"%char.
Proof.
  split; [reflexivity|]. split; [by apply valid_onlyFires|]. split; [reflexivity|].
  assert (stepsTo lowestRowFires (fun _ g' =>
            match alienBullets g' with
            | b :: _ =>
                b_visible b && (F32.roundf_int (b_x b) =? 3) && (F32.roundf_int (b_y b) =? 6)
            | [] => false
            end
            && (GetAlienScreenOffset g' 3 0 =? 8 * nScreenWidth + 2)
            && glyphIs g' 8 2 "(" && glyphIs g' 8 3 "+" && glyphIs g' 8 4 ")"
            && glyphIs g' 9 3 " " && glyphIs g' 6 3 "*") initial = true) as Hc.
  { vm_cast_no_check (eq_refl true). }
  apply stepsTo_true in Hc as (_ & g' & Hf & Hc).
  destruct (alienBullets g') as [|b pool] eqn:Hpool; [discriminate|]. unbool.
  exists g', b. rewrite Hpool. by split_and!.
Qed.

(** ** The glyphs that stop the player's bullet *)

Lemma transparent_glyphs c :
  transparent c = true <-> In c ["*"; "#"; "="; "-"; " "]%char.
Proof.
  destruct c as [b0 b1 b2 b3 b4 b5 b6 b7].
  destruct b0, b1, b2, b3, b4, b5, b6, b7; vm_compute;
    (split; [first [discriminate | intros _; auto 10] |]);
    first [reflexivity | intros H; repeat (destruct H as [H|H]; [discriminate H|]); destruct H].
Qed.

(** C10. The hit-test of the player's bullet ignores exactly the glyphs
    [*], [#], [=], [-] and the blank, so not the glyph [x] of an exploding
    enemy; and there is a state of the program, with the enemy of cell 39
    exploding and a score of 100, from which one frame brings the bullet
    under the [x] drawn for that enemy: the cell is set to Exploding again,
    the timer, which was running, is set to zero by the firing block, and
    the score is 200 although every other enemy is alive. *)
Theorem C10_exploding_enemy_scores_again :
  (forall c, transparent c = true <-> In c ["*"; "#"; "="; "-"; " "]%char)
  /\ transparent "x" = false
  /\ exists g g1 g' : Game,
       reachable g /\ bGameOver g = false /\ valid_input flyToRow3
       /\ alienState g !! 39%nat = Some EXPLODING /\ nAlienExploding g = 39
       /\ nScore g = 100 /\ F32.ltb F32.zero (fExplodingElapsed g) = true
       /\ glyphAt g 8 58 = Some "x"%char
       /\ firing flyToRow3 (beforeFiring flyToRow3 g) = Ok g1
       /\ fExplodingElapsed g1 = F32.zero
       /\ frame flyToRow3 g = Ok g'
       /\ F32.roundf_int (b_x (bullet g')) = 58 /\ F32.roundf_int (b_y (bullet g')) - 1 = 8
       /\ alienState g' !! 39%nat = Some EXPLODING /\ nAlienExploding g' = 39
       /\ nScore g' = 200
       /\ length (filter (fun v => v <> ALIVE) (alienState g')) = 1%nat.
Proof.
  split; [apply transparent_glyphs|]. split; [reflexivity|].
  destruct (lands_reachable secondShotFired
              (stepsTo flyToRow3 (fun g g' =>
                 cellIs g 39 EXPLODING && (nAlienExploding g =? 39) && (nScore g =? 100)
                 && F32.ltb F32.zero (fExplodingElapsed g) && glyphIs g 8 58 "x"
                 && match firing flyToRow3 (beforeFiring flyToRow3 g) with
                    | Ok g1 => bool_decide (fExplodingElapsed g1 = F32.zero)
                    | Crash _ => false
                    end
                 && (F32.roundf_int (b_x (bullet g')) =? 58)
                 && (F32.roundf_int (b_y (bullet g')) - 1 =? 8)
                 && cellIs g' 39 EXPLODING && (nAlienExploding g' =? 39)
                 && (nScore g' =? 200)
                 && Nat.eqb (length (filter (fun v => v <> ALIVE) (alienState g'))) 1)))
    as (g & Hr & Hc).
  - unfold secondShotFired, rest, pull. valid_inputs.
  - vm_cast_no_check (eq_refl true).
  - apply stepsTo_true in Hc as (Hover & g' & Hf & Hc). unbool.
    destruct (firing flyToRow3 (beforeFiring flyToRow3 g)) as [g1|] eqn:Hfire; [|discriminate].
    match goal with H : bool_decide _ = true |- _ => apply bool_decide_eq_true in H end.
    exists g, g1, g'. split_and!; first [done | by apply valid_play].
Qed.

(** * Further properties of the frame *)

(** ** What each block leaves alone *)

Lemma firing_formation inp g g1 : firing inp g = Ok g1 -> sameFormation g g1.
Proof.
  unfold firing. destruct (b_visible (bullet g)).
  - destruct (hitShields _ _ _) as [absorbed shs].
    destruct (_ <=? 0).
    + by intros [= <-].
    + intros Hb. apply bind_Ok in Hb as ([bHit [i j]] & _ & Hb). destruct bHit.
      * by apply bind_Ok in Hb as (st & _ & [= <-]).
      * by injection Hb as <-.
  - destruct (_ && _); by intros [= <-].
Qed.

Lemma firing_status inp g g1 : firing inp g = Ok g1 -> sameStatus g g1.
Proof.
  unfold firing. destruct (b_visible (bullet g)).
  - destruct (hitShields _ _ _) as [absorbed shs].
    destruct (_ <=? 0).
    + by intros [= <-].
    + intros Hb. apply bind_Ok in Hb as ([bHit [i j]] & _ & Hb). destruct bHit.
      * by apply bind_Ok in Hb as (st & _ & [= <-]).
      * by injection Hb as <-.
  - destruct (_ && _); by intros [= <-].
Qed.

Lemma animateAlien_formation inp g g1 : animateAlien inp g = Ok g1 -> sameFormation g g1.
Proof.
  unfold animateAlien. repeat case_match; try (by intros [= <-]).
  intros Hb. by apply bind_Ok in Hb as (st & _ & [= <-]).
Qed.

Lemma animateAlien_status inp g g1 : animateAlien inp g = Ok g1 -> sameStatus g g1.
Proof.
  unfold animateAlien. repeat case_match; try (by intros [= <-]).
  intros Hb. by apply bind_Ok in Hb as (st & _ & [= <-]).
Qed.

Lemma updateAlienBullets_formation inp pool : forall g pool' g',
  updateAlienBullets inp pool g = (pool', g') -> sameFormation g g'.
Proof.
  induction pool as [|b rest IH]; intros g pool' g'; simpl.
  - by intros [= <- <-].
  - destruct (b_visible b).
    + destruct (hitShields _ _ _) as [absorbed shs].
      destruct (negb _ && _ && _ && _); [|destruct (_ >=? _)];
        destruct (updateAlienBullets inp rest _) as [rest' g''] eqn:E;
        intros [= <- <-]; apply IH in E as []; split; cbn in *; congruence.
    + destruct (updateAlienBullets inp rest _) as [rest' g''] eqn:E.
      intros [= <- <-]. by apply IH in E.
Qed.

(** The loop over the enemy bullets hits the player at most once: either it
    leaves the lives and the flags as they are, or the player was not hit
    before, loses a life if one is left, and [bGameOver] becomes
    [nLives == 0]. *)
Lemma updateAlienBullets_status inp pool : forall g pool' g',
  updateAlienBullets inp pool g = (pool', g') ->
  bQuit g' = bQuit g
  /\ ((nLives g' = nLives g /\ bGameOver g' = bGameOver g /\ bPlayerHit g' = bPlayerHit g)
      \/ (bPlayerHit g = false /\ bPlayerHit g' = true
          /\ nLives g' = nLives g - (if 0 <? nLives g then 1 else 0)
          /\ bGameOver g' = (nLives g' =? 0))).
Proof.
  induction pool as [|b rest IH]; intros g pool' g'; simpl.
  - intros [= <- <-]. split; [done|]. by left.
  - destruct (b_visible b).
    + destruct (hitShields _ _ _) as [absorbed shs].
      destruct (negb _ && _ && _ && _) eqn:Hhit; [|destruct (_ >=? _)];
        destruct (updateAlienBullets inp rest _) as [rest' g''] eqn:E;
        intros [= <- <-]; apply IH in E as (Hq & E); cbn in *.
      * split; [done|]. right.
        destruct E as [(E1 & E2 & E3)|(E1 & _)]; [|discriminate].
        apply andb_prop in Hhit as [Hhit _]. apply andb_prop in Hhit as [Hhit _].
        apply andb_prop in Hhit as [Hhit _]. apply negb_true_iff in Hhit.
        split_and!; congruence.
      * by split.
      * by split.
    + destruct (updateAlienBullets inp rest _) as [rest' g''] eqn:E.
      intros [= <- <-]. by apply IH in E.
Qed.

Lemma beforeFiring_formation inp g : sameFormation g (beforeFiring inp g).
Proof. split; stage. Qed.

Lemma endOfFrame_formation inp g g4 scr :
  sameFormation g4 (endOfFrame inp g (set_screen scr (animatePlayer inp g4))).
Proof. split; stage. Qed.

Lemma beforeFiring_lives inp g : nLives (beforeFiring inp g) = nLives g.
Proof. stage. Qed.

Lemma beforeFiring_over inp g :
  bGameOver (beforeFiring inp g) = bGameOver g || key_get (bKeyPressed inp) ESC.
Proof.
  unfold beforeFiring, moveRight, moveLeft, pollQuit.
  destruct (key_get (bKeyPressed inp) ESC); repeat case_match; cbn;
    by rewrite ?orb_true_r, ?orb_false_r.
Qed.

Lemma beforeFiring_quit inp g :
  bQuit (beforeFiring inp g) = bQuit g || key_get (bKeyPressed inp) ESC.
Proof.
  unfold beforeFiring, moveRight, moveLeft, pollQuit.
  destruct (key_get (bKeyPressed inp) ESC); repeat case_match; cbn;
    by rewrite ?orb_true_r, ?orb_false_r.
Qed.

(** The formation after a frame is what the movement block makes of the
    formation the frame was entered with. *)
Lemma frame_formation inp g g' :
  frame inp g = Ok g' ->
  nAlienBlockX g' = nAlienBlockX (moveAliens (timeToMove inp g) g)
  /\ nAlienBlockY g' = nAlienBlockY (moveAliens (timeToMove inp g) g)
  /\ nAlienStep g' = nAlienStep (moveAliens (timeToMove inp g) g).
Proof.
  intros H. apply frame_inv in H as (g1 & pool & g3 & g4 & scr & H1 & H3 & H4 & ->).
  destruct (endOfFrame_formation inp g g4 scr) as [-> -> ->].
  apply animateAlien_formation in H4 as [-> -> ->]. cbn.
  apply updateAlienBullets_formation in H3 as [-> -> ->].
  apply firing_formation in H1 as [F1 F2 F3].
  destruct (beforeFiring_formation inp g) as [B1 B2 B3].
  rewrite B1 in F1. rewrite B2 in F2. rewrite B3 in F3.
  unfold afterMove, moveAliens, speedUp, flipStep. cbn.
  rewrite F1, F2, F3. repeat case_match; cbn; by rewrite ?F1, ?F2, ?F3.
Qed.

Lemma moveAliens_formationOk b g : formationOk g -> formationOk (moveAliens b g).
Proof.
  unfold formationOk, moveAliens, speedUp, flipStep, nScreenWidth, nScreenHeight,
    nAlienBlockWidth, nAlienBlockHeight, nAlienGlyphWidth.
  intros (Hx & Hy & Hs).
  repeat match goal with
         | |- context [Z.geb ?a ?b] => destruct (Z.geb_spec a b)
         | |- context [Z.leb ?a ?b] => destruct (Z.leb_spec a b)
         | |- context [Z.eqb ?a ?b] => destruct (Z.eqb_spec a b)
         end; destruct b; cbn; lia.
Qed.

Lemma frame_formationOk inp g g' : frame inp g = Ok g' -> formationOk g -> formationOk g'.
Proof.
  intros Hf Hok. apply frame_formation in Hf as (Hx & Hy & Hs).
  pose proof (moveAliens_formationOk (timeToMove inp g) g Hok) as Hm.
  unfold formationOk in *. rewrite Hx, Hy, Hs. exact Hm.
Qed.

Lemma reachable_formationOk g : reachable g -> formationOk g.
Proof.
  induction 1 as [|g g' inp _ IH _ _ Hf|g _ IH _ _].
  - unfold formationOk. cbn. unfold nScreenWidth, nScreenHeight, nAlienBlockWidth,
      nAlienBlockHeight, nAlienGlyphWidth. lia.
  - by eapply frame_formationOk.
  - destruct IH as (_ & _ & Hs). unfold formationOk. cbn.
    unfold nScreenWidth, nScreenHeight, nAlienBlockWidth, nAlienBlockHeight,
      nAlienGlyphWidth. lia.
Qed.

(** ** The formation *)

Lemma In_upto n z : In z (upto n) <-> 0 <= z < Z.of_nat n.
Proof.
  unfold upto. rewrite in_map_iff. split.
  - intros (k & <- & Hk). apply in_seq in Hk. lia.
  - intros Hz. exists (Z.to_nat z). split; [lia|]. apply in_seq. lia.
Qed.

Lemma In_alienCells i j :
  In (i, j) alienCells <-> 0 <= i < nAlienBlockHeight /\ 0 <= j < nAlienBlockWidth.
Proof.
  unfold alienCells. rewrite in_prod_iff, !In_upto.
  unfold nAlienBlockHeight, nAlienBlockWidth. lia.
Qed.

(** X1. In every state of the program the formation's origin column is
    between 0 and 60, its origin row between 2 and 26 and its step 1 or -1;
    hence every glyph of every enemy is drawn inside its own screen row: the
    block never runs over the left or the right edge of the screen. *)
Theorem X1_formation_stays_between_the_edges (g : Game) (Hr : reachable g) :
  formationOk g
  /\ forall i j k, In (i, j) alienCells -> 0 <= k < nAlienGlyphWidth ->
       exists col, 0 <= col < nScreenWidth
         /\ GetAlienScreenOffset g i j + k = (2 * i + nAlienBlockY g) * nScreenWidth + col.
Proof.
  pose proof (reachable_formationOk g Hr) as Hok. split; [exact Hok|].
  intros i j k Hc Hk. apply In_alienCells in Hc. destruct Hok as (Hx & _ & _).
  exists (nAlienBlockX g + j * 6 + k). unfold GetAlienScreenOffset.
  unfold nScreenWidth, nAlienBlockWidth, nAlienBlockHeight, nAlienGlyphWidth in *. lia.
Qed.

Lemma X1_formation_stays_between_the_edges_witness :
  reachable initial
  /\ GetAlienScreenOffset initial 3 9 + 2 = (2 * 3 + 2) * nScreenWidth + 58.
Proof.
  split; [apply reach_initial|].
  destruct (X1_formation_stays_between_the_edges initial reach_initial) as [_ Hcol].
  destruct (Hcol 3 9 2) as (col & _ & Hoff).
  - apply In_alienCells. unfold nAlienBlockHeight, nAlienBlockWidth. lia.
  - unfold nAlienGlyphWidth. lia.
  - reflexivity.
Defined.

(** X2. The formation moves as the movement block says, and nothing else
    in the frame moves it.  For a frame entered in a state of the program:
    at the bottom threshold the origin row is reset to 2; otherwise, without
    a movement tick nothing changes; on a tick at column 60 or at column 0
    the step is negated, the row grows by one and the column goes one step
    back inside; on any other tick the column moves by the step. *)
Theorem X2_formation_moves_as_a_block (g g' : Game) (inp : Input)
  (Hr : reachable g) (Hf : frame inp g = Ok g') :
  (nAlienBlockY g + nAlienBlockHeight >= nScreenHeight ->
   nAlienBlockX g' = nAlienBlockX g /\ nAlienBlockY g' = 2 /\ nAlienStep g' = nAlienStep g)
  /\ (nAlienBlockY g + nAlienBlockHeight < nScreenHeight ->
      (timeToMove inp g = false ->
       nAlienBlockX g' = nAlienBlockX g /\ nAlienBlockY g' = nAlienBlockY g
       /\ nAlienStep g' = nAlienStep g)
      /\ (timeToMove inp g = true ->
          (nAlienBlockX g = 60 ->
           nAlienBlockX g' = 59 /\ nAlienBlockY g' = nAlienBlockY g + 1
           /\ nAlienStep g' = - nAlienStep g)
          /\ (nAlienBlockX g = 0 ->
              nAlienBlockX g' = 1 /\ nAlienBlockY g' = nAlienBlockY g + 1
              /\ nAlienStep g' = - nAlienStep g)
          /\ (0 < nAlienBlockX g < 60 ->
              nAlienBlockX g' = nAlienBlockX g + nAlienStep g
              /\ nAlienBlockY g' = nAlienBlockY g /\ nAlienStep g' = nAlienStep g))).
Proof.
  apply frame_formation in Hf as (-> & -> & ->).
  destruct (reachable_formationOk g Hr) as (Hx & Hy & Hs).
  unfold moveAliens, speedUp, flipStep, nScreenWidth, nScreenHeight, nAlienBlockWidth,
    nAlienBlockHeight, nAlienGlyphWidth in *.
  destruct (timeToMove inp g);
    repeat match goal with
           | |- context [Z.geb ?a ?b] => destruct (Z.geb_spec a b)
           | |- context [Z.leb ?a ?b] => destruct (Z.leb_spec a b)
           | |- context [Z.eqb ?a ?b] => destruct (Z.eqb_spec a b)
           end; cbn; repeat split; intros; try discriminate; lia.
Qed.

Lemma X2_formation_moves_as_a_block_witness :
  exists g', frame wait initial = Ok g'
    /\ nAlienBlockX g' = 3 /\ nAlienBlockY g' = 2 /\ nAlienStep g' = 1.
Proof.
  destruct (frame wait initial) as [g'|f] eqn:Hf; [|vm_compute in Hf; discriminate Hf].
  exists g'. split; [reflexivity|].
  destruct (X2_formation_moves_as_a_block initial g' wait reach_initial Hf) as [_ Hmove].
  destruct Hmove as [_ Htick]; [vm_compute; reflexivity|].
  destruct (Htick eq_refl) as (_ & _ & Hstep).
  apply Hstep. vm_compute. split; reflexivity.
Defined.

(** ** Lives, and the end of a round *)

Lemma moveAliens_status b g :
  nLives (moveAliens b g) = nLives g /\ bQuit (moveAliens b g) = bQuit g
  /\ bPlayerHit (moveAliens b g) = bPlayerHit g
  /\ bGameOver (moveAliens b g)
     = bGameOver g || (nAlienBlockY g + nAlienBlockHeight >=? nScreenHeight).
Proof.
  unfold moveAliens, speedUp, flipStep.
  destruct (nAlienBlockY g + nAlienBlockHeight >=? nScreenHeight);
    repeat case_match; cbn; by rewrite ?orb_true_r, ?orb_false_r.
Qed.

Lemma endOfFrame_status inp g g4 scr :
  nLives (endOfFrame inp g (set_screen scr (animatePlayer inp g4))) = nLives g4
  /\ bGameOver (endOfFrame inp g (set_screen scr (animatePlayer inp g4))) = bGameOver g4
  /\ bQuit (endOfFrame inp g (set_screen scr (animatePlayer inp g4))) = bQuit g4.
Proof. split_and!; stage. Qed.

(** The lives and the flags over one frame. *)
Lemma frame_status inp g g' :
  frame inp g = Ok g' ->
  bQuit g' = bQuit g || key_get (bKeyPressed inp) ESC
  /\ ((nLives g' = nLives g
       /\ bGameOver g' = bGameOver g || key_get (bKeyPressed inp) ESC
                         || (nAlienBlockY g + nAlienBlockHeight >=? nScreenHeight))
      \/ (bPlayerHit g = false
          /\ nLives g' = nLives g - (if 0 <? nLives g then 1 else 0)
          /\ bGameOver g' = (nLives g' =? 0))).
Proof.
  intros H. apply frame_inv in H as (g1 & pool & g3 & g4 & scr & H1 & H3 & H4 & ->).
  destruct (endOfFrame_status inp g g4 scr) as (-> & -> & ->).
  apply animateAlien_status in H4 as [-> -> -> _]. cbn.
  apply updateAlienBullets_status in H3 as (-> & H3).
  pose proof (firing_formation _ _ _ H1) as [_ F2 _].
  apply firing_status in H1 as [F3 F4 F5 F6].
  destruct (beforeFiring_formation inp g) as [_ B2 _].
  rewrite beforeFiring_lives in F3. rewrite beforeFiring_over in F4.
  rewrite beforeFiring_quit in F5. rewrite beforeFiring_hit in F6. rewrite B2 in F2.
  unfold afterMove in *. cbn in *.
  destruct (moveAliens_status (timeToMove inp g) g1) as (M1 & M2 & M3 & M4).
  rewrite M1, M3, M4 in H3. rewrite M2, F5. split; [done|].
  destruct H3 as [(-> & -> & _)|(E1 & _ & -> & ->)]; [left|right].
  - by rewrite F3, F4, F2.
  - by rewrite <- F6, F3.
Qed.

Lemma reachable_livesOk g : reachable g -> livesOk g.
Proof.
  induction 1 as [|g g' inp _ IH Hover _ Hf|g _ _ _ _].
  - split; cbn; [lia|discriminate].
  - destruct IH as [Hl H0]. apply frame_status in Hf as (_ & [(E1 & _)|(_ & E1 & E2)]).
    + assert (nLives g <> 0) by (intros Hz; rewrite H0 in Hover by done; discriminate).
      split; [lia|]. intros Hz. lia.
    + destruct (Z.ltb_spec 0 (nLives g)).
      * split; [lia|]. intros Hz. rewrite E2. by apply Z.eqb_eq.
      * assert (nLives g = 0) as Hz by lia. rewrite H0 in Hover by done. discriminate.
  - split; cbn; [lia|discriminate].
Qed.

(** X3. When a round ends.  For a frame entered in a state of the program
    with the round going on, the player has between one and three lives, a
    quit request is recorded and never lost, and one of two things happens.
    Either the lives are unchanged, and the round is over after the frame
    exactly when the quit key was down or the formation was at the bottom
    threshold.  Or the player, who was not in the hit state, is hit by one
    enemy bullet and loses exactly one life, and the round is over after the
    frame exactly when no life is left. *)
Theorem X3_when_a_round_ends (g g' : Game) (inp : Input)
  (Hr : reachable g) (Hover : bGameOver g = false) (Hf : frame inp g = Ok g') :
  0 < nLives g <= 3
  /\ bQuit g' = bQuit g || key_get (bKeyPressed inp) ESC
  /\ ((nLives g' = nLives g
       /\ bGameOver g' = key_get (bKeyPressed inp) ESC
                         || (nAlienBlockY g + nAlienBlockHeight >=? nScreenHeight))
      \/ (bPlayerHit g = false /\ nLives g' = nLives g - 1
          /\ bGameOver g' = (nLives g' =? 0))).
Proof.
  destruct (reachable_livesOk g Hr) as [Hl H0].
  assert (nLives g <> 0) as Hnz by (intros Hz; rewrite H0 in Hover by done; discriminate).
  split; [lia|].
  apply frame_status in Hf as (Hq & Hcases). split; [exact Hq|].
  rewrite Hover in Hcases. cbn in Hcases.
  destruct Hcases as [?|(E1 & E2 & E3)]; [by left|right].
  destruct (Z.ltb_spec 0 (nLives g)); [|lia]. by split_and!.
Qed.

Lemma X3_when_a_round_ends_witness :
  exists g', frame wait initial = Ok g'
    /\ 0 < nLives initial <= 3
    /\ bQuit g' = bQuit initial || key_get (bKeyPressed wait) ESC.
Proof.
  destruct (frame wait initial) as [g'|f] eqn:Hf; [|vm_compute in Hf; discriminate Hf].
  exists g'. split; [reflexivity|].
  destruct (X3_when_a_round_ends initial g' wait reach_initial eq_refl Hf)
    as (Hl & Hq & _).
  split; [exact Hl|exact Hq].
Defined.

(** ** The enemy grid and the score *)

(** X4. The explosion slot.  In every state of the program the enemy grid
    has its 40 cells, each Alive, Exploding or Dead, and the exploding index
    is -1 or names a cell that is Exploding.  A frame does one of three
    things to the grid: nothing, the index being -1 or the timer below
    [0.6f]; or it makes the tracked cell Dead and clears the index, the
    timer having reached [0.6f]; or the player's bullet, which was in
    flight, strikes one cell, which becomes Exploding and tracked, for 100
    points. *)
Theorem X4_explosion_slot (g : Game) (Hr : reachable g) :
  gridOk g /\ forall inp g', frame inp g = Ok g' -> gridStep g g' /\ gridOk g'.
Proof.
  pose proof (reachable_gridOk g Hr) as Hok. split; [exact Hok|].
  intros inp g' Hf. apply frame_gridStep in Hf as Hs.
  split; [exact Hs|]. by eapply gridStep_gridOk.
Qed.

Lemma X4_explosion_slot_witness : reachable initial /\ nAlienExploding initial = -1.
Proof.
  split; [apply reach_initial|].
  destruct (X4_explosion_slot initial reach_initial) as [(_ & _ & [Hnone|[Hrange _]]) _].
  - exact Hnone.
  - reflexivity.
Defined.

(** X5. The life of an enemy cell.  Over a frame entered in a state of the
    program, a cell that is Alive afterwards was Alive before, so no enemy
    comes back; a cell that becomes Dead was the tracked exploding cell and
    the timer was not below [0.6f]; and when the timer is not below [0.6f]
    and no bullet of the player is in flight, the tracked cell does become
    Dead in that frame. *)
Theorem X5_enemy_cells_never_come_back (g g' : Game) (inp : Input) (k : nat)
  (Hr : reachable g) (Hf : frame inp g = Ok g') :
  (alienState g' !! k = Some ALIVE -> alienState g !! k = Some ALIVE)
  /\ (alienState g' !! k = Some DEAD -> alienState g !! k <> Some DEAD ->
      nAlienExploding g = Z.of_nat k /\ alienState g !! k = Some EXPLODING
      /\ F32.ltb (fExplodingElapsed g) (F32.lit 6 10) = false)
  /\ (nAlienExploding g = Z.of_nat k -> b_visible (bullet g) = false ->
      F32.ltb (fExplodingElapsed g) (F32.lit 6 10) = false ->
      alienState g' !! k = Some DEAD /\ nAlienExploding g' = -1).
Proof.
  pose proof (reachable_gridOk g Hr) as Hok.
  apply frame_gridStep in Hf. by apply gridStep_cells.
Qed.

Lemma X5_enemy_cells_never_come_back_witness :
  exists g', frame wait initial = Ok g'
    /\ (alienState g' !! 7%nat = Some ALIVE -> alienState initial !! 7%nat = Some ALIVE).
Proof.
  destruct (frame wait initial) as [g'|f] eqn:Hf; [|vm_compute in Hf; discriminate Hf].
  exists g'. split; [reflexivity|].
  exact (proj1 (X5_enemy_cells_never_come_back initial g' wait 7 reach_initial Hf)).
Defined.

Lemma reachable_score g : reachable g -> exists n, 0 <= n /\ nScore g = 100 * n.
Proof.
  induction 1 as [|g g' inp _ IH _ _ Hf|g _ _ _ _].
  - exists 0. by split.
  - destruct IH as (n & Hn & Hs).
    apply frame_gridStep in Hf as [_ _ E _|_ _ _ _ _ E|k _ _ _ _ E].
    + exists n. split; [done|congruence].
    + exists n. split; [done|congruence].
    + exists (n + 1). split; lia.
  - exists 0. by split.
Qed.

(** X6. The score.  In every state of the program the score is a
    non-negative multiple of 100.  A frame leaves it as it is or adds
    exactly 100, and it adds 100 only when the player's bullet was in flight
    and struck: then some cell of the grid is Exploding and tracked after
    the frame. *)
Theorem X6_score_counts_strikes (g : Game) (Hr : reachable g) :
  (exists n, 0 <= n /\ nScore g = 100 * n)
  /\ forall inp g', frame inp g = Ok g' ->
       nScore g' = nScore g
       \/ (nScore g' = nScore g + 100 /\ b_visible (bullet g) = true
           /\ 0 <= nAlienExploding g' < alienCount
           /\ alienState g' !! Z.to_nat (nAlienExploding g') = Some EXPLODING).
Proof.
  split; [by apply reachable_score|]. intros inp g' Hf.
  destruct (reachable_gridOk g Hr) as (Hlen & _ & _).
  apply frame_gridStep in Hf as [_ _ E _|_ _ _ _ _ E|k Hv Hk Es Ei E]; [by left|by left|].
  right. rewrite Ei, Es. split_and!; try done; try lia.
  apply list_lookup_insert_eq. rewrite Hlen. lia.
Qed.

Lemma X6_score_counts_strikes_witness : reachable initial /\ exists n, nScore initial = 100 * n.
Proof.
  split; [apply reach_initial|].
  destruct (X6_score_counts_strikes initial reach_initial) as [(n & _ & Hn) _].
  exists n. exact Hn.
Defined.

(** ** The enemy projectile pool *)

Lemma roundf_of_Z n : 0 <= n <= 4096 -> F32.roundf_int (F32.of_Z n) = n.
Proof.
  intros Hn.
  assert (forallb (fun z => F32.roundf_int (F32.of_Z z) =? z) (upto 4097) = true) as Hall
    by (vm_compute; reflexivity).
  rewrite forallb_forall in Hall. apply Z.eqb_eq, Hall, In_upto. lia.
Qed.

Lemma AlienFire_length blockX blockY i j pool :
  length (snd (AlienFire blockX blockY pool i j)) = length pool.
Proof.
  induction pool as [|b rest IH]; simpl; [done|].
  destruct (b_visible b); simpl; [|done].
  destruct (AlienFire blockX blockY rest i j). simpl in *. by rewrite IH.
Qed.

Lemma AlienFire_count blockX blockY i j pool :
  fst (AlienFire blockX blockY pool i j) = negb (forallb b_visible pool)
  /\ visibleCount (snd (AlienFire blockX blockY pool i j))
     = visibleCount pool + (if fst (AlienFire blockX blockY pool i j) then 1 else 0).
Proof.
  unfold visibleCount. induction pool as [|b rest IH]; simpl; [done|].
  destruct (b_visible b) eqn:Hb; simpl.
  - destruct (AlienFire blockX blockY rest i j) as [fired rest']. simpl in *.
    destruct IH as [-> IH]. split; [done|].
    rewrite !filter_cons, Hb. destruct (decide (true = true)); [|done].
    simpl. lia.
  - split; [done|]. rewrite !filter_cons, Hb. simpl.
    destruct (decide (true = true)); [|done].
    destruct (decide (false = true)); [done|]. simpl. lia.
Qed.

(** X7. [AlienFire] claims one slot or none.  For every pool, formation
    origin and enemy [(i, j)]: the pool keeps its size; the answer is [true]
    exactly when some slot is free; the number of visible bullets grows by
    one on [true] and is unchanged on [false]; on [true] the slot claimed is
    the first free one, the slots before and after it are untouched, and
    the new bullet keeps the glyph of the slot and starts at column
    [blockX + 6*j + 1] of row [blockY + i + 1], which are also the column
    and the row it is drawn at, for coordinates up to 4096. *)
Theorem X7_AlienFire_claims_first_free_slot (blockX blockY i j : Z) (pool : list Bullet) :
  length (snd (AlienFire blockX blockY pool i j)) = length pool
  /\ fst (AlienFire blockX blockY pool i j) = negb (forallb b_visible pool)
  /\ visibleCount (snd (AlienFire blockX blockY pool i j))
     = visibleCount pool + (if fst (AlienFire blockX blockY pool i j) then 1 else 0)
  /\ (fst (AlienFire blockX blockY pool i j) = true ->
      exists before b after,
        pool = before ++ b :: after
        /\ Forall (fun b => b_visible b = true) before /\ b_visible b = false
        /\ snd (AlienFire blockX blockY pool i j)
           = before ++ mkBullet true (F32.of_Z (blockX + 6 * j + 1))
                                (F32.of_Z (blockY + i + 1)) (b_glyph b) :: after)
  /\ (0 <= blockX + 6 * j + 1 <= 4096 -> 0 <= blockY + i + 1 <= 4096 ->
      F32.roundf_int (F32.of_Z (blockX + 6 * j + 1)) = blockX + 6 * j + 1
      /\ F32.roundf_int (F32.of_Z (blockY + i + 1)) = blockY + i + 1).
Proof.
  split; [apply AlienFire_length|].
  destruct (AlienFire_count blockX blockY i j pool) as [Hf Hc].
  split; [exact Hf|]. split; [exact Hc|]. split.
  - intros Ht. destruct (AlienFire blockX blockY pool i j) as [fired pool'] eqn:E.
    simpl in Ht. rewrite Ht in E. simpl. apply AlienFire_spawn. exact E.
  - intros Hx Hy. split; by apply roundf_of_Z.
Qed.

(** ** [HitAlien] *)

Lemma peek_Ok {A} name size (buf : list A) idx v :
  peek name size buf idx = Ok v -> 0 <= idx < size /\ buf !! Z.to_nat idx = Some v.
Proof.
  unfold peek. destruct (Z.leb_spec 0 idx), (Z.ltb_spec idx size); simpl; try discriminate.
  destruct (buf !! Z.to_nat idx) as [w|]; [|discriminate].
  intros [= ->]. split; [lia|done].
Qed.

(** The loop over the characters to ignore, without its [break]. *)
Lemma notSpecial_and b c special :
  notSpecial b c special = b && notSpecial true c special.
Proof. destruct special as [|s rest], b; simpl; reflexivity. Qed.

(** Two enemies never share a screen cell. *)
Lemma footprints_disjoint g idx i j i' j' :
  In (i, j) alienCells -> In (i', j') alienCells ->
  alienAt g idx (i, j) = true -> alienAt g idx (i', j') = true -> (i, j) = (i', j').
Proof.
  rewrite !In_alienCells. unfold alienAt, GetAlienScreenOffset. simpl.
  rewrite !andb_true_iff, !Z.leb_le, !Z.ltb_lt.
  unfold nAlienBlockHeight, nAlienBlockWidth, nScreenWidth.
  intros Hc Hc' Ha Ha'. assert (i = i') by lia. assert (j = j') by lia. congruence.
Qed.

(** X8. [HitAlien].  When the call returns, the cell it tested, one row
    above the rounded position of the bullet, is a cell of the screen, and
    the answer is [true] exactly when the bullet's [y] is positive and the
    glyph in that cell is not one of the five ignored ones.  On [false] the
    enemy indices are left as they were.  On [true] they are those of the
    one enemy whose three-cell footprint holds the tested cell, if there is
    one, and they are left as they were if there is none. *)
Theorem X8_HitAlien_names_the_enemy_under_the_bullet
  (g : Game) (b : Bullet) (a : bool) (cell : Z * Z) (H : HitAlien g b = Ok (a, cell)) :
  let idx := (F32.roundf_int (b_y b) - 1) * nScreenWidth + F32.roundf_int (b_x b) in
  0 <= idx < screenSize
  /\ (exists c, screen g !! Z.to_nat idx = Some c
        /\ a = F32.gtb (b_y b) (F32.of_Z 0) && negb (transparent c))
  /\ (a = false -> cell = (iAlien g, jAlien g))
  /\ (a = true ->
      (forall i j, In (i, j) alienCells -> alienAt g idx (i, j) = true -> cell = (i, j))
      /\ ((forall i j, In (i, j) alienCells -> alienAt g idx (i, j) = false) ->
          cell = (iAlien g, jAlien g))).
Proof.
  intros idx. revert H. unfold HitAlien. fold idx. intros H.
  apply bind_Ok in H as (c & Hc & H). apply peek_Ok in Hc as [Hidx Hc].
  split; [exact Hidx|].
  rewrite notSpecial_and in H.
  assert (notSpecial true c (list_ascii_of_string specialChars) = negb (transparent c)) as Ht
    by (unfold transparent; by rewrite negb_involutive).
  rewrite Ht in H.
  destruct (F32.gtb (b_y b) (F32.of_Z 0) && negb (transparent c)) eqn:Ha.
  - destruct (find (alienAt g idx) alienCells) as [[i0 j0]|] eqn:Hfind.
    + injection H as <- <-. split; [by exists c|]. split; [discriminate|].
      intros _. apply find_some in Hfind as [Hin Hat]. split.
      * intros i j Hin' Hat'. by eapply footprints_disjoint.
      * intros Hnone. rewrite (Hnone i0 j0 Hin) in Hat. discriminate.
    + injection H as <- <-. split; [by exists c|]. split; [discriminate|].
      intros _. split; [|done].
      intros i j Hin Hat. rewrite (find_none _ _ Hfind (i, j) Hin) in Hat. discriminate.
  - injection H as <- <-. split; [by exists c|]. split; [done|discriminate].
Qed.

Lemma X8_HitAlien_names_the_enemy_under_the_bullet_witness :
  let b := mkBullet true (F32.of_Z 5) (F32.of_Z 3) "|"%char in
  HitAlien initial b = Ok (false, (-1, -1)) /\ 0 <= 245 < screenSize.
Proof.
  intros b.
  assert (HitAlien initial b = Ok (false, (-1, -1))) as H by (vm_compute; reflexivity).
  split; [exact H|].
  exact (proj1 (X8_HitAlien_names_the_enemy_under_the_bullet initial b false (-1, -1) H)).
Defined.

(** ** Drawing inside the screen buffer *)

Lemma forM_Ok {A S} (body : A -> S -> result S) (l : list A) :
  (forall a, In a l -> forall s, exists s', body a s = Ok s') ->
  forall s, exists s', forM body l s = Ok s'.
Proof.
  induction l as [|a l IH]; intros Hbody s; simpl; [eauto|].
  destruct (Hbody a (or_introl eq_refl) s) as [s1 ->]. simpl.
  apply IH. intros a' Ha'. apply Hbody. by right.
Qed.

Lemma forM_Crash {A S} (body : A -> S -> result S) (l : list A) (a : A) :
  In a l -> (forall s, exists f, body a s = Crash f) ->
  forall s, exists f, forM body l s = Crash f.
Proof.
  induction l as [|a' l IH]; intros Hin Hbody s; simpl; [destruct Hin|].
  destruct (body a' s) as [s1|f] eqn:E; simpl; [|eauto].
  destruct Hin as [->|Hin]; [|by apply IH].
  destruct (Hbody s) as [f Hf]. congruence.
Qed.

Lemma poke_in {A} name size (buf : list A) idx v :
  0 <= idx < size -> poke name size buf idx v = Ok (<[Z.to_nat idx := v]> buf).
Proof.
  intros Hi. unfold poke.
  by destruct (Z.leb_spec 0 idx), (Z.ltb_spec idx size); try lia.
Qed.

Lemma poke_out {A} name size (buf : list A) idx v :
  size <= idx -> poke name size buf idx v = Crash (OutOfBounds name idx).
Proof.
  intros Hi. unfold poke.
  by destruct (Z.leb_spec 0 idx), (Z.ltb_spec idx size); try lia.
Qed.

Lemma glyph_of_enemy i off k :
  0 <= i < nAlienBlockHeight -> off = 0 \/ off = 3 -> 0 <= k < 3 ->
  exists glyphs c, alienGlyphs !! Z.to_nat (i mod 4) = Some glyphs
    /\ charAt "alienGlyphs" glyphs (off + k) = Ok c.
Proof.
  unfold nAlienBlockHeight. intros Hi Hoff Hk.
  assert (i = 0 \/ i = 1 \/ i = 2 \/ i = 3) as Hi' by lia.
  assert (k = 0 \/ k = 1 \/ k = 2) as Hk' by lia.
  destruct Hi' as [-> | [-> | [-> | ->]]], Hoff as [-> | ->], Hk' as [->|[-> | ->]];
    vm_compute; eauto.
Qed.

(** [drawAlien] once the state of the cell is read. *)
Lemma drawAlien_eq g off i j scr st :
  peek "alienState" alienCount (alienState g) (i * nAlienBlockWidth + j) = Ok st ->
  drawAlien g off (i, j) scr
  = if st =? 0 then
      forM (fun k scr =>
              match alienGlyphs !! Z.to_nat (i mod 4) with
              | Some glyphs =>
                  c ← charAt "alienGlyphs" glyphs (off + k);
                  poke "screen" screenSize scr (GetAlienScreenOffset g i j + k) c
              | None => Crash (OutOfBounds "alienGlyphs" (i mod 4))
              end) (upto 3) scr
    else if st =? 1 then
      forM (fun k scr => poke "screen" screenSize scr (GetAlienScreenOffset g i j + k) "x"%char)
           (upto 3) scr
    else Ok scr.
Proof. unfold drawAlien. by intros ->. Qed.

(** One enemy is drawn inside the buffer when it is dead or on a row of the
    screen, and outside when it is not dead and below the last row. *)
Lemma drawAlien_bounds g off i j :
  0 <= nAlienBlockX g <= 60 -> 0 <= nAlienBlockY g -> gridOk g -> off = 0 \/ off = 3 ->
  In (i, j) alienCells ->
  exists st, alienState g !! Z.to_nat (i * nAlienBlockWidth + j) = Some st
    /\ ((st = DEAD \/ 2 * i + nAlienBlockY g < nScreenHeight ->
         forall scr, exists scr', drawAlien g off (i, j) scr = Ok scr')
        /\ (st <> DEAD -> nScreenHeight <= 2 * i + nAlienBlockY g ->
            forall scr, exists f, drawAlien g off (i, j) scr = Crash f)).
Proof.
  intros Hx Hy (Hlen & Hcodes & _) Hoff Hin. apply In_alienCells in Hin as Hc.
  assert (Z.to_nat (i * nAlienBlockWidth + j) < length (alienState g))%nat as Hlt.
  { rewrite Hlen. unfold alienCount, nAlienBlockHeight, nAlienBlockWidth in *. lia. }
  destruct (lookup_lt_is_Some_2 _ _ Hlt) as [st Hst].
  exists st. split; [exact Hst|].
  pose proof (proj1 (Forall_lookup _ _) Hcodes _ _ Hst) as Hcode.
  assert (peek "alienState" alienCount (alienState g) (i * nAlienBlockWidth + j) = Ok st)
    as Hpeek.
  { unfold peek, alienCount, nAlienBlockHeight, nAlienBlockWidth in *.
    destruct (Z.leb_spec 0 (i * 10 + j)), (Z.ltb_spec (i * 10 + j) (10 * 4)); try lia.
    simpl. by rewrite Hst. }
  assert (forall k, 0 <= k < 3 ->
            0 <= GetAlienScreenOffset g i j + k
            /\ (2 * i + nAlienBlockY g < nScreenHeight ->
                GetAlienScreenOffset g i j + k < screenSize)
            /\ (nScreenHeight <= 2 * i + nAlienBlockY g ->
                screenSize <= GetAlienScreenOffset g i j + k)) as Hoffs.
  { intros k Hk. unfold GetAlienScreenOffset, screenSize, nScreenWidth, nScreenHeight,
      nAlienBlockHeight, nAlienBlockWidth in *. lia. }
  unfold ALIVE, EXPLODING, DEAD in *.
  split.
  - intros Hrow scr. rewrite (drawAlien_eq _ _ _ _ _ _ Hpeek).
    destruct (Z.eqb_spec st 0) as [->|H0]; [|destruct (Z.eqb_spec st 1) as [->|H1]].
    + destruct Hrow as [?|Hrow]; [done|].
      apply forM_Ok. intros k Hk s. apply In_upto in Hk.
      destruct (glyph_of_enemy i off k) as (glyphs & c & -> & ->); [tauto|done|lia|].
      simpl. rewrite poke_in; [eauto|]. destruct (Hoffs k) as (? & ? & _); [lia|]. lia.
    + destruct Hrow as [?|Hrow]; [done|].
      apply forM_Ok. intros k Hk s. apply In_upto in Hk.
      rewrite poke_in; [eauto|]. destruct (Hoffs k) as (? & ? & _); [lia|]. lia.
    + eauto.
  - intros Hnd Hrow scr. rewrite (drawAlien_eq _ _ _ _ _ _ Hpeek).
    assert (In 0 (upto 3)) as Hin0 by (apply In_upto; lia).
    destruct (Hoffs 0) as (_ & _ & Hout); [lia|].
    destruct (Z.eqb_spec st 0) as [->|H0]; [|destruct (Z.eqb_spec st 1) as [->|H1]].
    + apply (forM_Crash _ _ 0 Hin0). intros s.
      destruct (glyph_of_enemy i off 0) as (glyphs & c & -> & ->); [tauto|done|lia|].
      simpl. rewrite poke_out by lia. eauto.
    + apply (forM_Crash _ _ 0 Hin0). intros s. rewrite poke_out by lia. eauto.
    + lia.
Qed.

(** X9. When the formation can be drawn.  With the formation between the
    lateral edges, a well-formed enemy grid and a frame offset of 0 or 3,
    [DrawAliens] stays inside the screen buffer exactly when every enemy
    that is not Dead is on a row of the screen, that is
    [2*i + nAlienBlockY < nScreenHeight]; otherwise it writes past the end
    of the buffer.  In particular it stays inside whenever the origin row is
    at most 23. *)
Theorem X9_DrawAliens_in_bounds (g : Game) (off : Z) (scr : list ascii)
  (Hx : 0 <= nAlienBlockX g <= 60) (Hy : 0 <= nAlienBlockY g) (Hgrid : gridOk g)
  (Hoff : off = 0 \/ off = 3) :
  ((exists scr', DrawAliens g off scr = Ok scr')
   <-> (forall i j, In (i, j) alienCells ->
          alienState g !! Z.to_nat (i * nAlienBlockWidth + j) <> Some DEAD ->
          2 * i + nAlienBlockY g < nScreenHeight))
  /\ (nAlienBlockY g <= 23 -> exists scr', DrawAliens g off scr = Ok scr').
Proof.
  assert ((forall i j, In (i, j) alienCells ->
             alienState g !! Z.to_nat (i * nAlienBlockWidth + j) <> Some DEAD ->
             2 * i + nAlienBlockY g < nScreenHeight) ->
          exists scr', DrawAliens g off scr = Ok scr') as Hif.
  { intros Hrows. unfold DrawAliens. apply forM_Ok. intros [i j] Hin s.
    destruct (drawAlien_bounds g off i j Hx Hy Hgrid Hoff Hin) as (st & Hst & Hok & _).
    apply Hok. destruct (decide (st = DEAD)) as [->|Hnd]; [by left|right].
    apply (Hrows i j Hin). rewrite Hst. congruence. }
  split; [split; [|exact Hif]|].
  - intros [scr' Hdraw] i j Hin Hnd.
    destruct (Z.lt_ge_cases (2 * i + nAlienBlockY g) nScreenHeight) as [|Hlow]; [done|].
    exfalso.
    destruct (drawAlien_bounds g off i j Hx Hy Hgrid Hoff Hin) as (st & Hst & _ & Hcrash).
    assert (st <> DEAD) as Hst' by (intros ->; by rewrite Hst in Hnd).
    destruct (forM_Crash (drawAlien g off) alienCells (i, j) Hin (Hcrash Hst' Hlow) scr)
      as [f Hf].
    unfold DrawAliens in Hdraw. congruence.
  - intros Hy23. apply Hif. intros i j Hin _. apply In_alienCells in Hin.
    unfold nAlienBlockHeight, nScreenHeight in *. lia.
Qed.

Lemma X9_DrawAliens_in_bounds_witness :
  exists scr', DrawAliens initial 0 ClearBuffer = Ok scr'.
Proof.
  assert (gridOk initial) as Hgrid by apply gridOk_start.
  refine (proj2 (X9_DrawAliens_in_bounds initial 0 ClearBuffer _ _ Hgrid _) _).
  - vm_compute. split; discriminate.
  - vm_compute. discriminate.
  - by left.
  - vm_compute. discriminate.
Defined.

(** ** The shields *)

Lemma weaker_places shs' shs : Forall2 weaker shs' shs -> shieldPlaces shs' = shieldPlaces shs.
Proof.
  induction 1 as [|sh' sh shs' shs (Hx & Hy & _) _ IH]; [done|].
  unfold shieldPlaces in *. simpl. by rewrite Hx, Hy, IH.
Qed.

Lemma reachable_places g :
  reachable g -> shieldPlaces (shields g) = [(30, 24); (60, 24); (90, 24)].
Proof.
  induction 1 as [|g g' inp Hr IH _ _ Hf|g _ _ _ _]; [done| |done].
  apply frame_shields in Hf as [_ Hw]; [|by apply reachable_shields].
  by rewrite (weaker_places _ _ Hw).
Qed.

(** X10. The shields of a round.  In every state of the program there are
    three shields, at the columns 30, 60 and 90 of row 24, each with its 24
    cells of strength 0 to 3.  The loop that offers a position to all the
    shields is answered by at most one of them: when no shield absorbs, no
    shield changes; when one absorbs, the position is in the rows 24 to 26
    and in the eight columns of that shield, and that shield alone is
    replaced by what its [hit] returns. *)
Theorem X10_at_most_one_shield_absorbs (g : Game) (c r : Z) (Hr : reachable g) :
  shieldPlaces (shields g) = [(30, 24); (60, 24); (90, 24)]
  /\ Forall Shield.wf (shields g)
  /\ (fst (hitShields (shields g) c r) = false ->
      snd (hitShields (shields g) c r) = shields g)
  /\ (fst (hitShields (shields g) c r) = true ->
      24 <= r <= 26 /\ (30 <= c <= 37 \/ 60 <= c <= 67 \/ 90 <= c <= 97)
      /\ exists (n : nat) (sh sh' : Shield.t),
           shields g !! n = Some sh /\ Shield.inside sh c r = true
           /\ Shield.hit sh c r = (true, sh')
           /\ snd (hitShields (shields g) c r) = <[n := sh']> (shields g)).
Proof.
  pose proof (reachable_places g Hr) as Hp. pose proof (reachable_shields g Hr) as Hwf.
  split; [exact Hp|]. split; [exact Hwf|]. clear Hwf.
  destruct (shields g) as [|s1 [|s2 [|s3 [|s4 rest]]]]; try discriminate Hp.
  injection Hp as X1 Y1 X2 Y2 X3 Y3. simpl.
  destruct (Shield.inside s1 c r) eqn:I1, (Shield.inside s2 c r) eqn:I2,
    (Shield.inside s3 c r) eqn:I3;
    try (apply inside_spec in I1; apply inside_spec in I2;
         unfold Shield.Length, Shield.Height in *; lia);
    try (apply inside_spec in I1; apply inside_spec in I3;
         unfold Shield.Length, Shield.Height in *; lia);
    try (apply inside_spec in I2; apply inside_spec in I3;
         unfold Shield.Length, Shield.Height in *; lia);
    rewrite ?(hit_outside s1 c r) by done; rewrite ?(hit_outside s2 c r) by done;
    rewrite ?(hit_outside s3 c r) by done.
  - destruct (Shield.hit s1 c r) as [a s'] eqn:E. destruct a; simpl; split; try discriminate.
    + intros _. apply inside_spec in I1 as I1'. unfold Shield.Length, Shield.Height in *.
      split_and!; [lia|lia|left; lia|]. by exists 0%nat, s1, s'.
    + intros _. revert E. unfold Shield.hit. rewrite I1. repeat case_match; congruence.
  - destruct (Shield.hit s2 c r) as [a s'] eqn:E. destruct a; simpl; split; try discriminate.
    + intros _. apply inside_spec in I2 as I2'. unfold Shield.Length, Shield.Height in *.
      split_and!; [lia|lia|right; left; lia|]. by exists 1%nat, s2, s'.
    + intros _. revert E. unfold Shield.hit. rewrite I2. repeat case_match; congruence.
  - destruct (Shield.hit s3 c r) as [a s'] eqn:E. destruct a; simpl; split; try discriminate.
    + intros _. apply inside_spec in I3 as I3'. unfold Shield.Length, Shield.Height in *.
      split_and!; [lia|lia|right; right; lia|]. by exists 2%nat, s3, s'.
    + intros _. revert E. unfold Shield.hit. rewrite I3. repeat case_match; congruence.
  - simpl. split; [done|discriminate].
Qed.

Lemma X10_at_most_one_shield_absorbs_witness :
  reachable initial /\ fst (hitShields (shields initial) 61 25) = true /\ 24 <= 25 <= 26.
Proof.
  split; [apply reach_initial|].
  assert (fst (hitShields (shields initial) 61 25) = true) as Ha by (vm_compute; reflexivity).
  split; [exact Ha|].
  destruct (X10_at_most_one_shield_absorbs initial 61 25 reach_initial) as (_ & _ & _ & Habs).
  exact (proj1 (Habs Ha)).
Defined.

(** X11. [DrawShields] stays inside the screen buffer and inside the glyph
    table in every state of the program, whatever was drawn before. *)
Theorem X11_DrawShields_in_bounds (g : Game) (scr : list ascii) (Hr : reachable g) :
  exists scr', DrawShields g scr = Ok scr'.
Proof.
  pose proof (reachable_places g Hr) as Hp. pose proof (reachable_shields g Hr) as Hwf.
  unfold DrawShields. revert scr. apply forM_Ok. intros sh Hin.
  assert (In (Shield.nX sh, Shield.nY sh) [(30, 24); (60, 24); (90, 24)]) as Hplace.
  { rewrite <- Hp. unfold shieldPlaces.
    apply (in_map (fun sh => (Shield.nX sh, Shield.nY sh))). exact Hin. }
  pose proof (proj1 (List.Forall_forall _ _) Hwf sh Hin) as [Hlen Hall].
  apply forM_Ok. intros [i j] Hc s.
  apply in_prod_iff in Hc as [Hi Hj]. apply In_upto in Hi. apply In_upto in Hj.
  unfold Shield.Height, Shield.Length in *.
  unfold drawShieldCell.
  assert (Z.to_nat (i * 8 + j) < length (Shield.m_strength sh))%nat as Hlt
    by (rewrite Hlen; lia).
  destruct (lookup_lt_is_Some_2 _ _ Hlt) as [v Hv].
  pose proof (proj1 (Forall_lookup _ _) Hall _ _ Hv) as Hrange.
  unfold peek, Shield.Height, Shield.Length, Shield.MaxStrength in *.
  destruct (Z.leb_spec 0 (i * 8 + j)), (Z.ltb_spec (i * 8 + j) (8 * 3)); try lia.
  simpl. rewrite Hv. simpl.
  assert (v = 0 \/ v = 1 \/ v = 2 \/ v = 3) as Hv' by lia.
  assert (exists ch, charAt "shieldGlyphs" shieldGlyphs v = Ok ch) as [ch ->]
    by (destruct Hv' as [-> | [-> | [-> | ->]]]; vm_compute; eauto).
  simpl. rewrite poke_in; [eauto|].
  unfold screenSize, nScreenWidth, nScreenHeight.
  destruct Hplace as [E|[E|[E|[]]]]; injection E as <- <-; lia.
Qed.

Lemma X11_DrawShields_in_bounds_witness :
  reachable initial /\ exists scr', DrawShields initial ClearBuffer = Ok scr'.
Proof.
  split; [apply reach_initial|].
  exact (X11_DrawShields_in_bounds initial ClearBuffer reach_initial).
Defined.

(** X12. The [assert] of [Shield::hit] never fails: a position that passes
    the footprint test has an offset between 0 and [Length*Height - 1];
    two positions of the footprint with the same offset are the same
    position; and in a well-formed shield the cell at that offset exists
    and holds a strength between 0 and [MaxStrength]. *)
Theorem X12_hit_assert_holds (sh : Shield.t) (colX rowY : Z)
  (Hin : Shield.inside sh colX rowY = true) :
  0 <= Shield.offset sh colX rowY < Shield.Length * Shield.Height
  /\ (forall c r, Shield.inside sh c r = true ->
        Shield.offset sh c r = Shield.offset sh colX rowY -> c = colX /\ r = rowY)
  /\ (Shield.wf sh ->
      exists v, Shield.m_strength sh !! Z.to_nat (Shield.offset sh colX rowY) = Some v
        /\ 0 <= v <= Shield.MaxStrength).
Proof.
  split; [by apply hit_assert_holds|]. split.
  - intros c r Hin' Heq. apply (offset_inj sh c r colX rowY Hin' Hin). by rewrite Heq.
  - intros Hwf. by apply wf_strength.
Qed.

Lemma X12_hit_assert_holds_witness :
  Shield.inside (Shield.new 30 24) 37 26 = true
  /\ 0 <= Shield.offset (Shield.new 30 24) 37 26 < Shield.Length * Shield.Height.
Proof.
  split; [reflexivity|].
  exact (proj1 (X12_hit_assert_holds (Shield.new 30 24) 37 26 eq_refl)).
Defined.

(** ** The animation cadence *)

Lemma firing_cadence inp g g1 : firing inp g = Ok g1 -> sameCadence g g1.
Proof.
  unfold firing. destruct (b_visible (bullet g)).
  - destruct (hitShields _ _ _) as [absorbed shs].
    destruct (_ <=? 0).
    + by intros [= <-].
    + intros Hb. apply bind_Ok in Hb as ([bHit [i j]] & _ & Hb). destruct bHit.
      * by apply bind_Ok in Hb as (st & _ & [= <-]).
      * by injection Hb as <-.
  - destruct (_ && _); by intros [= <-].
Qed.

Lemma animateAlien_cadence inp g g1 : animateAlien inp g = Ok g1 -> sameCadence g g1.
Proof.
  unfold animateAlien. repeat case_match; try (by intros [= <-]).
  intros Hb. by apply bind_Ok in Hb as (st & _ & [= <-]).
Qed.

Lemma updateAlienBullets_cadence inp pool : forall g pool' g',
  updateAlienBullets inp pool g = (pool', g') ->
  nFrameOffset g' = nFrameOffset g /\ fAnimElapsed g' = fAnimElapsed g.
Proof.
  induction pool as [|b rest IH]; intros g pool' g'; simpl.
  - by intros [= <- <-].
  - destruct (b_visible b).
    + destruct (hitShields _ _ _) as [absorbed shs].
      destruct (negb _ && _ && _ && _); [|destruct (_ >=? _)];
        destruct (updateAlienBullets inp rest _) as [rest' g''] eqn:E;
        intros [= <- <-]; apply IH in E as []; split; cbn in *; congruence.
    + destruct (updateAlienBullets inp rest _) as [rest' g''] eqn:E.
      intros [= <- <-]. by apply IH in E.
Qed.

Lemma beforeFiring_cadence inp g :
  nFrameOffset (beforeFiring inp g) = nFrameOffset g
  /\ fAnimElapsed (beforeFiring inp g) = F32.add (fAnimElapsed g) (fElapsedTime inp)
  /\ alienBullets (beforeFiring inp g) = alienBullets g.
Proof. split_and!; stage. Qed.

Lemma moveAliens_cadence b g :
  nFrameOffset (moveAliens b g) = nFrameOffset g
  /\ fAnimElapsed (moveAliens b g) = fAnimElapsed g
  /\ alienBullets (moveAliens b g) = alienBullets g.
Proof. split_and!; stage. Qed.

Lemma frame_cadence inp g g' :
  frame inp g = Ok g' ->
  nFrameOffset g'
  = (if timeToMove inp g then if nFrameOffset g =? 3 then 0 else 3 else nFrameOffset g)
  /\ fAnimElapsed g'
     = (if timeToMove inp g then F32.zero
        else F32.add (fAnimElapsed g) (fElapsedTime inp)).
Proof.
  intros H. apply frame_inv in H as (g1 & pool & g3 & g4 & scr & H1 & H3 & H4 & ->).
  apply animateAlien_cadence in H4 as [A1 A2 _]. cbn in A1, A2.
  apply updateAlienBullets_cadence in H3 as [U1 U2].
  apply firing_cadence in H1 as [F1 F2 _].
  destruct (beforeFiring_cadence inp g) as (B1 & B2 & _).
  destruct (moveAliens_cadence (timeToMove inp g) g1) as (M1 & M2 & _).
  unfold afterMove in *. cbn in U1, U2.
  assert (nFrameOffset g4 = nFrameOffset g) as E1 by congruence.
  assert (fAnimElapsed g4 = F32.add (fAnimElapsed g) (fElapsedTime inp)) as E2 by congruence.
  assert (nFrameOffset (set_screen scr (animatePlayer inp g4)) = nFrameOffset g4) as P1
    by stage.
  assert (fAnimElapsed (set_screen scr (animatePlayer inp g4)) = fAnimElapsed g4) as P2
    by stage.
  unfold endOfFrame. destruct (timeToMove inp g).
  - cbn [nFrameOffset fAnimElapsed set_fAnimElapsed set_nFrameOffset].
    rewrite P1, E1. done.
  - rewrite P1, P2, E1, E2. done.
Qed.

Lemma reachable_offset g : reachable g -> nFrameOffset g = 0 \/ nFrameOffset g = 3.
Proof.
  induction 1 as [|g g' inp _ IH _ _ Hf|g _ _ _ _]; [by left| |by left].
  apply frame_cadence in Hf as [-> _].
  destruct (timeToMove inp g); [|done].
  destruct (Z.eqb_spec (nFrameOffset g) 3); [by left|by right].
Qed.

(** X13. The animation cadence.  In every state of the program the frame
    of the enemy glyphs is 0 or 3 and the animation delay is [0.35f].  A
    frame is a movement tick when the time accumulated since the last tick,
    the elapsed time of the frame included, has reached the delay: then the
    glyph frame is switched between 0 and 3 and the accumulated time starts
    again from zero; otherwise the glyph frame stays and the elapsed time is
    added to the accumulated time. *)
Theorem X13_animation_cadence (g g' : Game) (inp : Input)
  (Hr : reachable g) (Hf : frame inp g = Ok g') :
  (nFrameOffset g = 0 \/ nFrameOffset g = 3)
  /\ fAnimDelay g = F32.lit 35 100
  /\ timeToMove inp g
     = F32.geb (F32.add (fAnimElapsed g) (fElapsedTime inp)) (F32.lit 35 100)
  /\ (timeToMove inp g = true ->
      nFrameOffset g' = 3 - nFrameOffset g /\ fAnimElapsed g' = F32.zero)
  /\ (timeToMove inp g = false ->
      nFrameOffset g' = nFrameOffset g
      /\ fAnimElapsed g' = F32.add (fAnimElapsed g) (fElapsedTime inp)).
Proof.
  pose proof (reachable_offset g Hr) as Hoff. pose proof (reachable_delay g Hr) as Hd.
  split; [exact Hoff|]. split; [exact Hd|].
  split; [unfold timeToMove; by rewrite Hd|].
  apply frame_cadence in Hf as [-> ->].
  split; intros ->; [|done].
  split; [|done]. destruct Hoff as [-> | ->]; reflexivity.
Qed.

Lemma X13_animation_cadence_witness :
  exists g', frame wait initial = Ok g' /\ nFrameOffset g' = 3 - nFrameOffset initial.
Proof.
  destruct (frame wait initial) as [g'|f] eqn:Hf; [|vm_compute in Hf; discriminate Hf].
  exists g'. split; [reflexivity|].
  destruct (X13_animation_cadence initial g' wait reach_initial Hf) as (_ & _ & _ & Ht & _).
  apply Ht. vm_compute. reflexivity.
Defined.

(** ** The player's bullet in flight *)

Lemma firing_flight inp g g1 :
  b_visible (bullet g) = true -> firing inp g = Ok g1 ->
  let y := F32.add (b_y (bullet g)) (F32.mul (fPlayerBulletSpeed g) (fElapsedTime inp)) in
  b_x (bullet g1) = b_x (bullet g) /\ b_y (bullet g1) = y
  /\ b_glyph (bullet g1) = b_glyph (bullet g)
  /\ (b_visible (bullet g1) = true ->
      0 < F32.roundf_int y
      /\ fst (hitShields (shields g) (F32.roundf_int (b_x (bullet g))) (F32.roundf_int y))
         = false
      /\ nScore g1 = nScore g).
Proof.
  intros Hvis. unfold firing. rewrite Hvis. cbn zeta.
  set (y := F32.add _ _).
  change (b_x (setY y (bullet g))) with (b_x (bullet g)).
  change (b_y (setY y (bullet g))) with y.
  destruct (hitShields _ _ _) as [absorbed shs]. simpl fst.
  destruct (Z.leb_spec (F32.roundf_int y) 0).
  - intros [= <-]. cbn. destruct absorbed; cbn; split_and!; try done; discriminate.
  - intros Hb. apply bind_Ok in Hb as ([bHit [i j]] & _ & Hb). destruct bHit.
    + apply bind_Ok in Hb as (st & _ & [= <-]). cbn.
      destruct absorbed; cbn; split_and!; try done; discriminate.
    + injection Hb as <-. cbn.
      destruct absorbed; cbn; split_and!; try done; try discriminate;
        try (intros _; by split_and!).
Qed.

Lemma firing_shot inp g g1 :
  b_visible (bullet g) = false -> firing inp g = Ok g1 -> b_visible (bullet g1) = true ->
  b_x (bullet g1) = F32.add (fPlayerX g) (F32.of_Z 1)
  /\ b_y (bullet g1) = F32.sub (F32.of_Z nScreenHeight) (F32.of_Z 2).
Proof.
  intros Hvis. unfold firing. rewrite Hvis.
  destruct (_ && _); intros [= <-]; cbn; [done|]. congruence.
Qed.

Lemma frame_bullet inp g g' :
  frame inp g = Ok g' ->
  exists g1, firing inp (beforeFiring inp g) = Ok g1 /\ bullet g' = bullet g1.
Proof.
  intros H. apply frame_inv in H as (g1 & pool & g3 & g4 & scr & H1 & H3 & H4 & ->).
  exists g1. split; [exact H1|].
  rewrite endOfFrame_bullet.
  apply animateAlien_rest in H4 as (_ & _ & -> & _). cbn.
  apply updateAlienBullets_frame in H3 as (_ & _ & _ & -> & _).
  apply afterMove_bullet.
Qed.

Lemma beforeFiring_speed inp g :
  fPlayerBulletSpeed (beforeFiring inp g) = fPlayerBulletSpeed g.
Proof. stage. Qed.

Lemma reachable_bullet_row g :
  reachable g -> b_visible (bullet g) = true -> 0 < F32.roundf_int (b_y (bullet g)).
Proof.
  induction 1 as [|g g' inp _ IH _ _ Hf|g _ _ _ _]; [discriminate| |discriminate].
  intros Hvis'. apply frame_bullet in Hf as (g1 & H1 & Hb). rewrite Hb in *.
  destruct (b_visible (bullet g)) eqn:Hvis.
  - apply firing_flight in H1; [|by rewrite beforeFiring_bullet].
    destruct H1 as (_ & -> & _ & Hrow). by apply Hrow.
  - apply firing_shot in H1 as [_ ->]; [|by rewrite beforeFiring_bullet|done].
    vm_compute. reflexivity.
Qed.

(** X14. The player's bullet.  A frame entered with no bullet in flight
    ends with one only if the fire key is down, the latch is set and the
    player is not in the hit state; the bullet then starts one column to the
    right of the player's position, in row 28.  A frame entered with the
    bullet in flight leaves its column and glyph alone and adds the speed
    times the elapsed time to its row; the bullet is still in flight after
    the frame only if its rounded row is positive and no shield absorbed it.
    Hence in every state of the program a bullet in flight has a rounded
    row of at least 1. *)
Theorem X14_player_bullet (g g' : Game) (inp : Input)
  (Hr : reachable g) (Hf : frame inp g = Ok g') :
  (b_visible (bullet g) = false -> b_visible (bullet g') = true ->
   key_get (bKeyPressed inp) SPACEBAR = true /\ key_get (bKeyHold g) SPACEBAR = true
   /\ bPlayerHit g = false
   /\ b_x (bullet g') = F32.add (fPlayerX (beforeFiring inp g)) (F32.of_Z 1)
   /\ F32.roundf_int (b_y (bullet g')) = nScreenHeight - 2)
  /\ (b_visible (bullet g) = true ->
      let y := F32.add (b_y (bullet g)) (F32.mul (fPlayerBulletSpeed g) (fElapsedTime inp)) in
      b_x (bullet g') = b_x (bullet g) /\ b_y (bullet g') = y
      /\ b_glyph (bullet g') = b_glyph (bullet g)
      /\ (b_visible (bullet g') = true ->
          0 < F32.roundf_int y
          /\ fst (hitShields (shields g) (F32.roundf_int (b_x (bullet g)))
                             (F32.roundf_int y)) = false))
  /\ (b_visible (bullet g) = true -> 0 < F32.roundf_int (b_y (bullet g))).
Proof.
  split; [|split].
  - intros Hvis Hvis'. destruct (frame_fires inp g g' Hf Hvis Hvis') as (Hk & Hh & Hp).
    apply frame_bullet in Hf as (g1 & H1 & Hb). rewrite Hb in *.
    apply firing_shot in H1 as [Hx Hy]; [|by rewrite beforeFiring_bullet|done].
    split_and!; try done. rewrite Hy. vm_compute. reflexivity.
  - intros Hvis y. apply frame_bullet in Hf as (g1 & H1 & Hb). rewrite Hb.
    apply firing_flight in H1; [|by rewrite beforeFiring_bullet].
    rewrite beforeFiring_bullet, beforeFiring_speed, beforeFiring_shields in H1.
    destruct H1 as (Hx & Hy & Hg & Hrow). fold y in Hy, Hrow.
    split_and!; try done. intros Hv. destruct (Hrow Hv) as (? & ? & _). by split.
  - by apply reachable_bullet_row.
Qed.

Lemma X14_player_bullet_witness :
  exists g', frame pull initial = Ok g'
    /\ b_visible (bullet g') = true
    /\ F32.roundf_int (b_y (bullet g')) = nScreenHeight - 2.
Proof.
  destruct (frame pull initial) as [g'|f] eqn:Hf; [|vm_compute in Hf; discriminate Hf].
  exists g'. split; [reflexivity|].
  assert (b_visible (bullet g') = true) as Hv.
  { vm_compute in Hf. injection Hf as <-. reflexivity. }
  split; [exact Hv|].
  destruct (X14_player_bullet initial g' pull reach_initial Hf) as (Hfire & _).
  destruct (Hfire eq_refl Hv) as (_ & _ & _ & _ & Hy). exact Hy.
Defined.

(** ** The pool of enemy bullets *)

(** What the pool looks like between two frames. *)
Lemma AlienFire_poolOk blockX blockY i j pool :
  Forall (fun b => b_glyph b = "*"%char) pool ->
  Forall (fun b => b_glyph b = "*"%char) (snd (AlienFire blockX blockY pool i j)).
Proof.
  induction 1 as [|b rest Hb Hrest IH]; simpl; [constructor|].
  destruct (b_visible b); simpl.
  - destruct (AlienFire blockX blockY rest i j). simpl in *.
    constructor; [exact Hb|exact IH].
  - constructor; [exact Hb|exact Hrest].
Qed.

Lemma aliensFire_pool inp g cells : forall n pool,
  Forall (fun b => b_glyph b = "*"%char) pool ->
  length (aliensFire inp g cells n pool) = length pool
  /\ Forall (fun b => b_glyph b = "*"%char) (aliensFire inp g cells n pool).
Proof.
  induction cells as [|[i j] cells IH]; intros n pool Hp; simpl; [done|].
  destruct (alienState g !! _) as [[|p|p]|]; try (by apply IH).
  destruct (F32.ltb _ _); [|by apply IH].
  destruct (IH (S n) (snd (AlienFire (nAlienBlockX g) (nAlienBlockY g) pool i j)))
    as [-> ?]; [by apply AlienFire_poolOk|].
  by rewrite AlienFire_length.
Qed.

Lemma updateAlienBullets_pool inp pool : forall g pool' g',
  updateAlienBullets inp pool g = (pool', g') ->
  Forall (fun b => b_glyph b = "*"%char) pool ->
  length pool' = length pool /\ Forall poolSlotOk pool'.
Proof.
  induction pool as [|b rest IH]; intros g pool' g'; simpl.
  - by intros [= <- <-].
  - intros H Hp. apply Forall_cons in Hp as [Hb Hrest]. revert H.
    destruct (b_visible b) eqn:Hvis.
    + destruct (hitShields _ _ _) as [absorbed shs].
      destruct (negb _ && _ && _ && _); [|destruct (Z.geb _ _) eqn:Hge];
        destruct (updateAlienBullets inp rest _) as [rest' g''] eqn:E;
        intros [= <- <-]; destruct (IH _ _ _ E Hrest) as [Hl Hok];
        (split; [simpl; by rewrite Hl|]); constructor; try done;
        destruct absorbed; split; cbn; try done; intros _;
        rewrite Z.geb_leb in Hge; apply Z.leb_gt in Hge; exact Hge.
    + destruct (updateAlienBullets inp rest _) as [rest' g''] eqn:E.
      intros [= <- <-]. destruct (IH _ _ _ E Hrest) as [Hl Hok].
      split; [simpl; by rewrite Hl|]. constructor; [|done]. split; [done|]. by rewrite Hvis.
Qed.

Lemma poolSlotOk_glyph pool :
  Forall poolSlotOk pool -> Forall (fun b => b_glyph b = "*"%char) pool.
Proof. intros H. eapply Forall_impl; [exact H|]. by intros b [? _]. Qed.

Lemma frame_pool inp g g' :
  frame inp g = Ok g' ->
  exists g1 pool g3,
    firing inp (beforeFiring inp g) = Ok g1
    /\ updateAlienBullets inp (alienBullets (afterMove inp g g1)) (afterMove inp g g1)
       = (pool, g3)
    /\ alienBullets g' = pool /\ alienBullets g1 = alienBullets g.
Proof.
  intros H. apply frame_inv in H as (g1 & pool & g3 & g4 & scr & H1 & H3 & H4 & ->).
  exists g1, pool, g3. split; [exact H1|]. split; [exact H3|].
  apply animateAlien_cadence in H4 as [_ _ A]. cbn in A.
  apply firing_cadence in H1 as [_ _ F].
  destruct (beforeFiring_cadence inp g) as (_ & _ & B).
  split; [|congruence]. rewrite <- A. stage.
Qed.

Lemma reachable_pool g :
  reachable g -> length (alienBullets g) = nMaxAlienBullet /\ Forall poolSlotOk (alienBullets g).
Proof.
  induction 1 as [|g g' inp _ [IHl IHp] _ _ Hf|g _ _ _ _].
  - split; [reflexivity|]. repeat constructor.
  - apply frame_pool in Hf as (g1 & pool & g3 & _ & H3 & -> & Hg1).
    apply poolSlotOk_glyph in IHp. rewrite <- Hg1 in IHl, IHp.
    unfold afterMove in H3. cbn [alienBullets set_alienBullets] in H3.
    destruct (moveAliens_cadence (timeToMove inp g) g1) as (_ & _ & M).
    rewrite M in H3.
    destruct (aliensFire_pool inp (moveAliens (timeToMove inp g) g1) alienCells 0
                (alienBullets g1) IHp) as [Hl Hp].
    apply updateAlienBullets_pool in H3 as [-> Hok]; [|exact Hp].
    split; [congruence|exact Hok].
  - split; [reflexivity|]. repeat constructor.
Qed.

Lemma visibleCount_le pool : 0 <= visibleCount pool <= Z.of_nat (length pool).
Proof.
  unfold visibleCount. pose proof (length_filter (fun b => b_visible b = true) pool). lia.
Qed.

(** X15. The pool of enemy bullets.  In every state of the program the
    pool has exactly [nMaxAlienBullet] slots, so at most five enemy bullets
    are in flight; every slot carries the glyph ['*'], and the rounded row
    of a bullet in flight is less than [nScreenHeight]: a bullet that has
    reached the row below the player is withdrawn in the frame in which it
    gets there, whether or not it hits the player. *)
Theorem X15_enemy_bullet_pool (g : Game) (Hr : reachable g) :
  length (alienBullets g) = nMaxAlienBullet
  /\ 0 <= visibleCount (alienBullets g) <= 5
  /\ forall b, In b (alienBullets g) ->
       b_glyph b = "*"%char
       /\ (b_visible b = true -> F32.roundf_int (b_y b) < nScreenHeight).
Proof.
  destruct (reachable_pool g Hr) as [Hl Hp]. split; [exact Hl|]. split.
  - pose proof (visibleCount_le (alienBullets g)) as H. rewrite Hl in H.
    unfold nMaxAlienBullet in H. lia.
  - intros b Hb. rewrite Forall_forall in Hp. apply Hp.
    by apply list_elem_of_In.
Qed.

Lemma X15_enemy_bullet_pool_witness :
  length (alienBullets initial) = nMaxAlienBullet
  /\ 0 <= visibleCount (alienBullets initial) <= 5.
Proof.
  destruct (X15_enemy_bullet_pool initial reach_initial) as (Hl & Hc & _).
  split; [exact Hl|exact Hc].
Defined.

(** ** Drawing the player *)

Lemma DrawPlayer_eq g scr :
  DrawPlayer g scr
  = forM (fun k scr =>
            let offset := nPlayerY * nScreenWidth + F32.roundf_int (fPlayerX g) + k in
            if offset <? nScreenHeight * nScreenWidth then
              if bPlayerHit g then poke "screen" screenSize scr offset "X"%char
              else c ← charAt "playerGlyph" playerGlyph k;
                   poke "screen" screenSize scr offset c
            else Ok scr) [0; 1; 2] scr.
Proof. reflexivity. Qed.

(** The cell [n] of the buffer after the player is drawn at column [x]. *)
Lemma drawn_cell (scr : list ascii) (n : nat) (idx : Z) (c : ascii) :
  0 <= idx -> (Z.to_nat idx < length scr)%nat ->
  <[Z.to_nat idx := c]> scr !! n = if decide (Z.of_nat n = idx) then Some c else scr !! n.
Proof.
  intros Hi Hlt. destruct (decide (Z.of_nat n = idx)) as [<-|Hne].
  - rewrite Nat2Z.id in *. by apply list_lookup_insert_eq.
  - apply list_lookup_insert_ne. lia.
Qed.

(** One turn of the loop of [DrawPlayer]. *)
Lemma DrawPlayer_turn g k scr :
  0 <= k < 3 -> 0 <= playerOffset g + k -> length scr = Z.to_nat screenSize ->
  exists scr',
    (let offset := nPlayerY * nScreenWidth + F32.roundf_int (fPlayerX g) + k in
     if offset <? nScreenHeight * nScreenWidth then
       if bPlayerHit g then poke "screen" screenSize scr offset "X"%char
       else c ← charAt "playerGlyph" playerGlyph k;
            poke "screen" screenSize scr offset c
     else Ok scr) = Ok scr'
    /\ length scr' = length scr
    /\ forall n : nat,
         scr' !! n = if decide (Z.of_nat n = playerOffset g + k /\ Z.of_nat n < screenSize)
                     then playerChar g k else scr !! n.
Proof.
  intros Hk Hoff Hlen. cbn zeta. fold (playerOffset g).
  change (nScreenHeight * nScreenWidth) with screenSize.
  assert (exists c, charAt "playerGlyph" playerGlyph k = Ok c
                    /\ String.get (Z.to_nat k) playerGlyph = Some c) as (c & Hc & Hget).
  { assert (k = 0 \/ k = 1 \/ k = 2) as [-> | [-> | ->]] by lia; vm_compute; eauto. }
  destruct (Z.ltb_spec (playerOffset g + k) screenSize) as [Hlt|Hge].
  - exists (<[Z.to_nat (playerOffset g + k) := if bPlayerHit g then "X"%char else c]> scr).
    split; [|split].
    + destruct (bPlayerHit g); [|rewrite Hc; simpl]; by apply poke_in.
    + apply length_insert.
    + intros n. rewrite drawn_cell by lia. unfold playerChar.
      destruct (decide (Z.of_nat n = playerOffset g + k)),
               (decide (Z.of_nat n = playerOffset g + k /\ Z.of_nat n < screenSize));
        try lia; try done.
      destruct (bPlayerHit g); [done|]. by rewrite Hget.
  - exists scr. split; [done|]. split; [done|]. intros n.
    destruct (decide (_ /\ _)); [lia|done].
Qed.

(** X16. [DrawPlayer] clips the glyph at the end of the buffer, not at the
    end of the screen row.  On a buffer of [nScreenWidth * nScreenHeight]
    cells, with the player's rounded column such that the first offset is
    not negative, the routine succeeds; it changes exactly the cells of the
    last row from the player's column on, three at most, that lie inside
    the buffer, to the three characters of the glyph, or to ['X'] while the
    player is in the hit state.  If the first offset is negative, the first
    write is out of bounds. *)
Theorem X16_DrawPlayer_clips_at_the_buffer_end (g : Game) (scr : list ascii)
  (Hlen : length scr = Z.to_nat screenSize) :
  (0 <= playerOffset g ->
   exists scr', DrawPlayer g scr = Ok scr' /\ length scr' = length scr
     /\ forall n : nat,
          scr' !! n
          = if decide (playerOffset g <= Z.of_nat n < playerOffset g + 3
                       /\ Z.of_nat n < screenSize)
            then playerChar g (Z.of_nat n - playerOffset g) else scr !! n)
  /\ (playerOffset g < 0 ->
      DrawPlayer g scr = Crash (OutOfBounds "screen" (playerOffset g))).
Proof.
  rewrite DrawPlayer_eq. set (body := fun (k : Z) (scr : list ascii) => _).
  cbn [forM]. split.
  - intros Hoff.
    destruct (DrawPlayer_turn g 0 scr) as (s0 & E0 & L0 & C0); [lia|lia|done|].
    destruct (DrawPlayer_turn g 1 s0) as (s1 & E1 & L1 & C1); [lia|lia|congruence|].
    destruct (DrawPlayer_turn g 2 s1) as (s2 & E2 & L2 & C2); [lia|lia|congruence|].
    exists s2.
    assert (body 0 scr = Ok s0) as -> by exact E0. simpl.
    assert (body 1 s0 = Ok s1) as -> by exact E1. simpl.
    assert (body 2 s1 = Ok s2) as -> by exact E2. simpl.
    split; [done|]. split; [congruence|]. intros n.
    rewrite C2, C1, C0.
    repeat match goal with |- context [decide ?P] => destruct (decide P) end;
      try lia; try done; f_equal; lia.
  - intros Hneg.
    assert (body 0 scr = Crash (OutOfBounds "screen" (playerOffset g))) as ->; [|done].
    subst body. cbn beta zeta. fold (playerOffset g). rewrite Z.add_0_r.
    destruct (Z.ltb_spec (playerOffset g) (nScreenHeight * nScreenWidth)) as [_|Hge];
      [|unfold nScreenHeight, nScreenWidth in Hge; lia].
    assert (poke "screen" screenSize scr (playerOffset g)
            = fun c => Crash (OutOfBounds "screen" (playerOffset g))) as Hp.
    { unfold poke. destruct (Z.leb_spec 0 (playerOffset g)); [lia|done]. }
    destruct (bPlayerHit g); [by rewrite Hp|].
    change (charAt "playerGlyph" playerGlyph 0) with (Ok (A := ascii) "<"%char).
    simpl. by rewrite Hp.
Qed.

Lemma X16_DrawPlayer_clips_at_the_buffer_end_witness :
  exists scr', DrawPlayer initial ClearBuffer = Ok scr'
    /\ scr' !! Z.to_nat (playerOffset initial + 1) = Some "I"%char.
Proof.
  destruct (X16_DrawPlayer_clips_at_the_buffer_end initial ClearBuffer) as [Hok _].
  - apply length_replicate.
  - destruct Hok as (scr' & Hd & _ & Hc); [vm_compute; discriminate|].
    exists scr'. split; [exact Hd|].
    rewrite Hc. vm_compute. reflexivity.
Defined.
